(** * A remote job executor: job supervisor, append-only output log, cursors
      and job registry

    Shallow embedding of [pkg/job_manager/job_manager.go] and of the job
    store and the [GetOutput] handler of the gRPC server ([cmd], package
    [main]).

    Conventions of the embedding.
    - Go pointers ([*Log], [*Job]) are addresses into a store; two cursors on
      the same job hold the same address, so aliasing is kept.  The nil
      pointer is an address that is not allocated: dereferencing it panics.
    - Every critical section (the code between a [Lock]/[RLock] and the
      matching unlock) is one atomic function on the store.  A concurrent
      execution is a sequence of such atomic steps.
    - What the operating system answers ([StdoutPipe], [Start], [Wait],
      [Signal]) is an input of the step that asks.
    - Go's [int] is a 64-bit two's complement integer, embedded in [Z] with
      the wrap-around written out. *)

From Stdlib Require Import ZArith String List Lia.
From stdpp Require Import gmap strings list fin_maps.

Local Open Scope string_scope.
Local Open Scope list_scope.
Local Open Scope Z_scope.

(** ** Go's [int], [len] and indexing *)

Module GoInt.

Definition min_int : Z := - 2 ^ 63.
Definition max_int : Z := 2 ^ 63 - 1.

(** Two's complement wrap-around of an [int] result. *)
Definition wrap (z : Z) : Z := (z - min_int) mod 2 ^ 64 + min_int.

(** [len(s)]; the Go runtime never builds a slice longer than [max_int]. *)
Definition len {A} (s : list A) : Z := Z.of_nat (length s).

Definition fits {A} (s : list A) : Prop := len s <= max_int.

(** [s[i]]: [None] is the run-time panic "index out of range". *)
Definition index {A} (s : list A) (i : Z) : option A :=
  if (0 <=? i) && (i <? len s) then s !! Z.to_nat i else None.

End GoInt.

(** ** Results of code that may panic *)

Inductive result (A : Type) : Type :=
| Ok (a : A)
| Panic.
Arguments Ok {A} a.
Arguments Panic {A}.

#[global] Instance result_ret : MRet result := @Ok.

#[global] Instance result_bind : MBind result := fun A B f x =>
  match x with
  | Ok a => f a
  | Panic => Panic
  end.

(** ** Errors *)

(** An error reported by the operating system, kept as its message. *)
Definition oserr := string.

Inductive error : Type :=
| errors_New (text : string)
| from_os (e : oserr).

#[global] Instance error_eq_dec : EqDecision error.
Proof. solve_decision. Defined.

(** [err.Error()]. *)
Definition Error (err : error) : string :=
  match err with
  | errors_New text => text
  | from_os e => e
  end.

Module job_manager.

(** *** JobStatus *)

Inductive JobStatus : Type :=
| StatusRunning
| StatusCompleted
| StatusFailed
| StatusTerminated.

#[global] Instance JobStatus_eq_dec : EqDecision JobStatus.
Proof. solve_decision. Defined.

(** The string behind each constant ([type JobStatus string]). *)
Definition JobStatus_string (s : JobStatus) : string :=
  match s with
  | StatusRunning => "running"
  | StatusCompleted => "completed"
  | StatusFailed => "failed"
  | StatusTerminated => "terminated"
  end.

(** *** The store *)

Definition loc := positive.

Record Log : Type := mkLog { Lines : list string }.

Record LogReader : Type := mkLogReader {
  CurrentPosition : Z;
  log : loc
}.

(** [exec.Command(command, args...)]. *)
Record exec_Cmd : Type := exec_Command {
  Path : string;
  Args : list string
}.

Record Job : Type := mkJob {
  Cmd : exec_Cmd;
  Status : JobStatus;
  job_Log : loc
}.

(** Background tasks started with [go]. *)
Inductive goroutine : Type :=
| go_captureOutput (job : loc)
| go_monitorCompletion (job : loc).

Inductive os_Signal : Type :=
| os_Interrupt.

Record World : Type := mkWorld {
  logs : gmap loc Log;
  jobs : gmap loc Job;
  goroutines : list goroutine;
  (** signals the operating system accepted, latest first *)
  signalled : list (loc * os_Signal)
}.

Definition set_logs (f : gmap loc Log → gmap loc Log) (w : World) : World :=
  mkWorld (f (logs w)) (jobs w) (goroutines w) (signalled w).

Definition set_jobs (f : gmap loc Job → gmap loc Job) (w : World) : World :=
  mkWorld (logs w) (f (jobs w)) (goroutines w) (signalled w).

Definition go (g : goroutine) (w : World) : World :=
  mkWorld (logs w) (jobs w) (goroutines w ++ [g]) (signalled w).

Definition deliver (j : loc) (s : os_Signal) (w : World) : World :=
  mkWorld (logs w) (jobs w) (goroutines w) ((j, s) :: signalled w).

Definition set_Status (s : JobStatus) (job : Job) : Job :=
  mkJob (Cmd job) s (job_Log job).

Definition empty_world : World := mkWorld ∅ ∅ [] [].

(** *** Log *)

(** [NewLog]: [&Log{}] at a fresh address. *)
Definition NewLog (w : World) : loc * World :=
  let l := fresh (dom (logs w)) in
  (l, set_logs (insert l (mkLog [])) w).

(** [AppendLine], whole body under [log.Mutex.Lock]. *)
Definition AppendLine (l : loc) (line : string) (w : World) : result World :=
  match logs w !! l with
  | None => Panic
  | Some lg => Ok (set_logs (insert l (mkLog (Lines lg ++ [line]))) w)
  end.

(** *** LogReader *)

(** What one acquisition of the read lock in [ReadNextLine] ends in. *)
Inductive poll : Type :=
| Sleep
| Return (line : string) (ok : bool) (r : LogReader).

(** One pass through [ReadNextLine] from an [RLock] to the next [RUnlock]:
    the loop test and, when the loop is left, the rest of the body, which
    runs under the same acquisition.  [Sleep] is the path
    [RUnlock; time.Sleep(10ms); RLock], after which the test runs again. *)
Definition ReadNextLine_locked (blocking : bool) (r : LogReader) (w : World)
  : result poll :=
  match logs w !! log r with
  | None => Panic
  | Some lg =>
      if negb blocking || (CurrentPosition r <? GoInt.len (Lines lg)) then
        if CurrentPosition r >=? GoInt.len (Lines lg) then
          Ok (Return "" false r)
        else
          match GoInt.index (Lines lg) (CurrentPosition r) with
          | None => Panic
          | Some line =>
              Ok (Return line true
                    (mkLogReader (GoInt.wrap (CurrentPosition r + 1)) (log r)))
          end
      else Ok Sleep
  end.

(** Milliseconds slept between two tests of the loop. *)
Definition sleep_ms : Z := 10.

(** A finished call: what it returned, the cursor afterwards, and how many
    times it slept first. *)
Record returned : Type := mkReturned {
  line : string;
  ok : bool;
  reader : LogReader;
  sleeps : nat
}.

(** Time spent asleep by a finished call, in milliseconds. *)
Definition time_asleep (ret : returned) : Z := sleep_ms * Z.of_nat (sleeps ret).

(** [ReadNextLine].  [view k] is the store as it is at the [k]-th
    acquisition of the read lock by this call; other goroutines run while
    the lock is released, so successive views may differ.  [k] counts the
    sleeps so far.  [None] means the call has not returned after [fuel]
    acquisitions. *)
Fixpoint ReadNextLine_from (fuel : nat) (blocking : bool) (r : LogReader)
    (view : nat → World) (k : nat) : option (result returned) :=
  match fuel with
  | O => None
  | S fuel' =>
      match ReadNextLine_locked blocking r (view k) with
      | Panic => Some Panic
      | Ok Sleep => ReadNextLine_from fuel' blocking r view (S k)
      | Ok (Return s b r') => Some (Ok (mkReturned s b r' k))
      end
  end.

Definition ReadNextLine (fuel : nat) (blocking : bool) (r : LogReader)
    (view : nat → World) : option (result returned) :=
  ReadNextLine_from fuel blocking r view 0.

(** *** Job *)

(** What the operating system answers while a job is started: the error, if
    any, of [cmd.StdoutPipe()], [cmd.StderrPipe()] and [cmd.Start()]. *)
Record launch : Type := mkLaunch {
  StdoutPipe_err : option oserr;
  StderrPipe_err : option oserr;
  Start_err : option oserr
}.

(** [StartJob].  The job and its log are allocated, and the capture task is
    started, before [cmd.Start()] is tried. *)
Definition StartJob (command : string) (args : list string) (os : launch)
    (w : World) : (option loc * option error) * World :=
  let cmd := exec_Command command args in
  match StdoutPipe_err os with
  | Some err => ((None, Some (from_os err)), w)
  | None =>
      match StderrPipe_err os with
      | Some err => ((None, Some (from_os err)), w)
      | None =>
          let '(l, w1) := NewLog w in
          let job := fresh (dom (jobs w1)) in
          let w2 := set_jobs (insert job (mkJob cmd StatusRunning l)) w1 in
          let w3 := go (go_captureOutput job) w2 in
          match Start_err os with
          | Some err => ((None, Some (from_os err)), w3)
          | None => ((Some job, None), go (go_monitorCompletion job) w3)
          end
      end
  end.

(** What [buf.ReadBytes('\n')] answers. *)
Inductive read_err : Type :=
| read_nil
| io_EOF
| read_failed (e : oserr).

(** The closure [readNextLine] of [_captureOutput]. *)
Definition readNextLine (l : loc) (bytes : string) (err : read_err)
    (w : World) : result World :=
  match err with
  | read_failed _ => Ok w
  | _ => if 0 <? GoInt.len (list_ascii_of_string bytes)
         then AppendLine l bytes w else Ok w
  end.

(** One turn of the loop of [_captureOutput]; [None] is the [break]. *)
Definition _captureOutput_turn (job : loc)
    (out : string * read_err) (err : string * read_err) (w : World)
  : result (option World) :=
  match jobs w !! job with
  | None => Panic
  | Some j =>
      if decide (Status j ≠ StatusRunning) then Ok None
      else
        w1 ← readNextLine (job_Log j) out.1 out.2 w;
        w2 ← readNextLine (job_Log j) err.1 err.2 w1;
        Ok (Some w2)
  end.

(** [_monitorCompletion], from the moment [job.Cmd.Wait()] has returned
    [wait_err]. *)
Definition _monitorCompletion (job : loc) (wait_err : option oserr)
    (w : World) : result World :=
  match jobs w !! job with
  | None => Panic
  | Some j =>
      match wait_err with
      | Some _ => Ok (set_jobs (insert job (set_Status StatusFailed j)) w)
      | None => Ok (set_jobs (insert job (set_Status StatusCompleted j)) w)
      end
  end.

(** [Stop]; [signal_err] is what [job.Cmd.Process.Signal(os.Interrupt)]
    answers if it is called. *)
Definition Stop (job : loc) (signal_err : option oserr) (w : World)
  : result (option error * World) :=
  match jobs w !! job with
  | None => Panic
  | Some j =>
      if decide (Status j ≠ StatusRunning) then
        Ok (Some (errors_New "job is not running or has already completed"), w)
      else
        match signal_err with
        | Some err => Ok (Some (from_os err), w)
        | None =>
            Ok (None,
                set_jobs (insert job (set_Status StatusTerminated j))
                  (deliver job os_Interrupt w))
        end
  end.

Definition GetStatus (job : loc) (w : World) : result JobStatus :=
  match jobs w !! job with
  | None => Panic
  | Some j => Ok (Status j)
  end.

Definition NewLogReader (job : loc) (w : World) : result LogReader :=
  match jobs w !! job with
  | None => Panic
  | Some j => Ok (mkLogReader 0 (job_Log j))
  end.

(** The loop of [ReadAllLines]: each turn is one non-blocking
    [ReadNextLine]; the next turn sees the views that follow the
    acquisition at which the previous call returned. *)
Fixpoint ReadAllLines_loop (fuel : nat) (logReader : LogReader)
    (lines : list string) (view : nat → World)
  : option (result (list string)) :=
  match fuel with
  | O => None
  | S fuel' =>
      match ReadNextLine fuel false logReader view with
      | None => None
      | Some Panic => Some Panic
      | Some (Ok ret) =>
          if negb (ok ret) then Some (Ok lines)
          else ReadAllLines_loop fuel' (reader ret) (lines ++ [line ret])
                 (fun i => view (S (sleeps ret) + i)%nat)
      end
  end.

Definition ReadAllLines (fuel : nat) (job : loc) (view : nat → World)
  : option (result (list string)) :=
  match NewLogReader job (view O) with
  | Panic => Some Panic
  | Ok logReader => ReadAllLines_loop fuel logReader [] view
  end.

End job_manager.

(** ** The gRPC server: job store and handlers *)

Module server.

Import job_manager.

(** The global [jobStore] (its [jobs] map, whose values are pointers that
    may be nil, here [None]) next to the store of the library. *)
Record Server : Type := mkServer {
  jobStore : gmap string (option loc);
  world : World
}.

(** [jobStore] as initialised: [make(map[string]*job.Job)]. *)
Definition init : Server := mkServer ∅ empty_world.

(** [StartJob]; [id] is the string of the identifier that [uuid.New()]
    draws if it is called. *)
Definition StartJob (command : string) (args : list string) (os : launch)
    (id : string) (s : Server) : (string * option error) * Server :=
  match job_manager.StartJob command args os (world s) with
  | ((_, Some err), w) => (("", Some err), mkServer (jobStore s) w)
  | ((j, None), w) => ((id, None), mkServer (<[id := j]> (jobStore s)) w)
  end.

Definition GetJob (jobID : string) (s : Server) : option loc * option error :=
  match jobStore s !! jobID with
  | None => (None, Some (errors_New "job not found"))
  | Some j => (j, None)
  end.

(** The flattening loop of [GetOutput]. *)
Definition flatten (lines : list string) : list Byte.byte :=
  fold_left (fun output line => output ++ list_byte_of_string line) lines [].

(** [GetOutput]: the bytes of the response, or the error.  The job is looked
    up in [s]; [view] gives the library store at the lock acquisitions
    that follow. *)
Definition GetOutput (fuel : nat) (jobID : string) (s : Server)
    (view : nat → World) : option (result (option (list Byte.byte) * option error)) :=
  match GetJob jobID s with
  | (_, Some err) => Some (Ok (None, Some err))
  | (None, None) => Some Panic
  | (Some job, None) =>
      match ReadAllLines fuel job view with
      | None => None
      | Some Panic => Some Panic
      | Some (Ok lines) => Some (Ok (Some (flatten lines), None))
      end
  end.

(** [QueryStatus]. *)
Definition QueryStatus (jobID : string) (s : Server)
  : result (option (string * string) * option error) :=
  match GetJob jobID s with
  | (_, Some err) => Ok (None, Some err)
  | (None, None) => Panic
  | (Some job, None) =>
      status ← GetStatus job (world s);
      Ok (Some (jobID, JobStatus_string status), None)
  end.

(** The two uses of the job store: a start request, which registers the
    job it starts, and a lookup.  A sequence of requests is served in
    order, each under the lock of the store. *)
Inductive request : Type :=
| Register (command : string) (args : list string) (os : launch) (id : string)
| Lookup (jobID : string).

Definition handle (q : request) (s : Server) : Server :=
  match q with
  | Register command args os id => (StartJob command args os id s).2
  | Lookup jobID => let _ := GetJob jobID s in s
  end.

Definition serve (qs : list request) (s : Server) : Server :=
  fold_left (fun s q => handle q s) qs s.

(** The identifier returned and the job started by each start request that
    succeeded, the earliest first. *)
Fixpoint registrations (qs : list request) (s : Server)
  : list (string * option loc) :=
  match qs with
  | [] => []
  | q :: qs' =>
      match q with
      | Register command args os id =>
          let started := job_manager.StartJob command args os (world s) in
          let answer := StartJob command args os id s in
          match answer.1.2 with
          | None => [(answer.1.1, started.1.1)]
          | Some _ => []
          end
      | Lookup _ => []
      end ++ registrations qs' (handle q s)
  end.

(** The [Start] handler: [JobStartResponse{JobId: id}] or the error. *)
Definition Start (command : string) (args : list string) (os : launch)
    (id : string) (s : Server) : (option string * option error) * Server :=
  match StartJob command args os id s with
  | ((_, Some err), s') => ((None, Some err), s')
  | ((id, None), s') => ((Some id, None), s')
  end.

Record JobStopResponse : Type := mkJobStopResponse {
  resp_Status : string;
  resp_Message : string
}.

(** The [Stop] handler; [signal_err] is passed on to [job.Stop()]. *)
Definition Stop (jobID : string) (signal_err : option oserr) (s : Server)
  : result ((JobStopResponse * option error) * Server) :=
  match GetJob jobID s with
  | (_, Some err) => Ok ((mkJobStopResponse "error" (Error err), None), s)
  | (None, None) => Panic
  | (Some job, None) =>
      r ← job_manager.Stop job signal_err (world s);
      match r.1 with
      | Some err =>
          Ok ((mkJobStopResponse "error" (Error err), None),
              mkServer (jobStore s) r.2)
      | None =>
          Ok ((mkJobStopResponse "stopped" "Job successfully stopped", None),
              mkServer (jobStore s) r.2)
      end
  end.

(** How far a [SubscribeOutput] call has got. *)
Inductive served : Type :=
| StillServing
| Returned (err : error)
| Panicked.

(** The loop of [SubscribeOutput].  [send k] is what [stream.Send] answers
    for the [k]-th message, counted from [0]; [sent] collects the messages
    it accepted.  Each turn is one blocking [ReadNextLine], whose [ok] is
    dropped.  With the fuel used up the call is still in the loop. *)
Fixpoint SubscribeOutput_loop (fuel : nat) (logReader : LogReader)
    (view : nat → World) (send : nat → option error)
    (sent : list (list Byte.byte)) : list (list Byte.byte) * served :=
  match fuel with
  | O => (sent, StillServing)
  | S fuel' =>
      match ReadNextLine fuel true logReader view with
      | None => (sent, StillServing)
      | Some Panic => (sent, Panicked)
      | Some (Ok ret) =>
          match send (length sent) with
          | Some err => (sent, Returned err)
          | None =>
              SubscribeOutput_loop fuel' (reader ret)
                (fun i => view (S (sleeps ret) + i)%nat) send
                (sent ++ [list_byte_of_string (line ret)])
          end
      end
  end.

Definition SubscribeOutput (fuel : nat) (jobID : string) (s : Server)
    (view : nat → World) (send : nat → option error)
  : list (list Byte.byte) * served :=
  match GetJob jobID s with
  | (_, Some err) => ([], Returned err)
  | (None, None) => ([], Panicked)
  | (Some job, None) =>
      match NewLogReader job (view O) with
      | Panic => ([], Panicked)
      | Ok logReader => SubscribeOutput_loop fuel logReader view send []
      end
  end.

End server.

(** ** Concurrent executions

    A run of the library with its clients is a sequence of atomic steps, one
    per critical section.  Each client goroutine holds at most one
    [LogReader] (a value, not a pointer); next to it the lines the reader
    has returned so far are recorded. *)

Module run.

Import job_manager.

Inductive step : Type :=
| DoStartJob (command : string) (args : list string) (os : launch)
| DoAppendLine (l : loc) (line : string)
| DoMonitorCompletion (job : loc) (wait_err : option oserr)
| DoStop (job : loc) (signal_err : option oserr)
| DoNewLogReader (client : nat) (job : loc)
| DoReadNextLine (client : nat) (blocking : bool).

Record State : Type := mkState {
  world : World;
  readers : gmap nat (LogReader * list string)
}.

Definition exec (e : step) (s : State) : result State :=
  match e with
  | DoStartJob command args os =>
      Ok (mkState (StartJob command args os (world s)).2 (readers s))
  | DoAppendLine l line =>
      w ← AppendLine l line (world s); Ok (mkState w (readers s))
  | DoMonitorCompletion job wait_err =>
      w ← _monitorCompletion job wait_err (world s); Ok (mkState w (readers s))
  | DoStop job signal_err =>
      r ← Stop job signal_err (world s); Ok (mkState r.2 (readers s))
  | DoNewLogReader client job =>
      r ← NewLogReader job (world s);
      Ok (mkState (world s) (<[client := (r, [])]> (readers s)))
  | DoReadNextLine client blocking =>
      match readers s !! client with
      | None => Panic
      | Some (r, got) =>
          p ← ReadNextLine_locked blocking r (world s);
          match p with
          | Sleep => Ok s
          | Return line ok r' =>
              Ok (mkState (world s)
                    (<[client := (r', if ok then got ++ [line] else got)]>
                       (readers s)))
          end
      end
  end.

Fixpoint execs (es : list step) (s : State) : result State :=
  match es with
  | [] => Ok s
  | e :: es' => s' ← exec e s; execs es' s'
  end.

Definition init : State := mkState empty_world ∅.

(** The status of a job after each step of a run, the earliest first. *)
Fixpoint statuses (job : loc) (es : list step) (s : State)
  : result (list JobStatus) :=
  match es with
  | [] => Ok []
  | e :: es' =>
      s' ← exec e s;
      st ← GetStatus job (world s');
      sts ← statuses job es' s';
      Ok (st :: sts)
  end.

End run.

(** ** Concrete stores used to exercise the statements *)

Module demo.

Import job_manager.

Definition ok_launch : launch := mkLaunch None None None.

(** One job, started and still running, that has printed nothing yet. *)
Definition silent : World :=
  (StartJob "sleep" ["10"] ok_launch empty_world).2.

(** The same job after two lines of output were captured. *)
Definition two_lines : World :=
  set_logs (insert 1%positive (mkLog ["line1"; "line2"])) silent.

Definition job1 : loc := 1%positive.
Definition log1 : loc := 1%positive.

End demo.

(** ** Predicates of the statements *)

Section Predicates.

Import job_manager.

Implicit Types (w : World) (lg : Log) (r : LogReader) (s : run.State)
  (os : launch).

(** The cursor's log, at acquisition [i], has nothing at the cursor's
    position. *)
Definition nothing_new r (view : nat → World) (i : nat) : Prop :=
  ∃ lg, logs (view i) !! log r = Some lg ∧
        GoInt.len (Lines lg) <= CurrentPosition r.

(** Some step of the launch was refused by the operating system. *)
Definition cannot_launch os : Prop :=
  is_Some (StdoutPipe_err os) ∨ is_Some (StderrPipe_err os)
  ∨ is_Some (Start_err os).

(** Every log of [w] is still there in [w'], with the same lines followed
    by zero or more new ones. *)
Definition grows w w' : Prop :=
  ∀ l lg, logs w !! l = Some lg →
    ∃ lg', logs w' !! l = Some lg' ∧ Lines lg `prefix_of` Lines lg'.

(** Every job of the store owns a log of the store. *)
Definition jobs_have_logs w : Prop :=
  ∀ job j, jobs w !! job = Some j → is_Some (logs w !! job_Log j).

(** A cursor is over a log of the store, stands at a position between [0]
    and the length of that log, and has returned the lines below its
    position, in order. *)
Definition cursor_ok w (c : LogReader * list string) : Prop :=
  ∃ lg, logs w !! log c.1 = Some lg
        ∧ 0 <= CurrentPosition c.1 <= GoInt.len (Lines lg)
        ∧ c.2 = take (Z.to_nat (CurrentPosition c.1)) (Lines lg).

(** The chunk a read of the capture task hands to [AppendLine], if any:
    the bytes read, unless the read failed or read nothing. *)
Definition accepted (chunk : string * read_err) : list string :=
  match chunk.2 with
  | read_failed _ => []
  | _ => if 0 <? GoInt.len (list_ascii_of_string chunk.1) then [chunk.1] else []
  end.

(** From [w] to [w'] every job is kept with its command and its log, a job
    that is no longer running does not run again, and a job that has
    completed or failed is not marked terminated. *)
Definition jobs_settle w w' : Prop :=
  ∀ job j, jobs w !! job = Some j →
    ∃ j', jobs w' !! job = Some j'
          ∧ Cmd j' = Cmd j
          ∧ job_Log j' = job_Log j
          ∧ (Status j ≠ StatusRunning → Status j' ≠ StatusRunning)
          ∧ (Status j = StatusCompleted ∨ Status j = StatusFailed →
             Status j' = StatusCompleted ∨ Status j' = StatusFailed).

(** No two jobs share a log. *)
Definition logs_exclusive w : Prop :=
  ∀ job1 job2 j1 j2,
    jobs w !! job1 = Some j1 → jobs w !! job2 = Some j2 →
    job_Log j1 = job_Log j2 → job1 = job2.

(** No process was signalled twice, and every job whose process was
    signalled is no longer running. *)
Definition signalled_once w : Prop :=
  NoDup (signalled w)
  ∧ ∀ job sg, (job, sg) ∈ signalled w →
      ∃ j, jobs w !! job = Some j ∧ Status j ≠ StatusRunning.

(** Every cursor held by a client is as [cursor_ok] says. *)
Definition cursors_ok s : Prop :=
  ∀ client c, run.readers s !! client = Some c → cursor_ok (run.world s) c.

(** No log of the store is longer than an [int] can count. *)
Definition all_fit w : Prop :=
  ∀ l lg, logs w !! l = Some lg → GoInt.fits (Lines lg).


End Predicates.

(** * Properties *)

(** ** Arithmetic of [int] and slices *)

Section GoIntFacts.

Import GoInt.

Lemma wrap_id (z : Z) : min_int <= z <= max_int → wrap z = z.
Proof.
  unfold wrap, min_int, max_int. intros Hz.
  rewrite Z.mod_small by lia. lia.
Qed.

Lemma len_nonneg {A} (s : list A) : 0 <= len s.
Proof. unfold len. lia. Qed.

Lemma len_app {A} (s t : list A) : len (s ++ t) = len s + len t.
Proof. unfold len. rewrite length_app. lia. Qed.

Lemma index_in_range {A} (s : list A) (i : Z) :
  0 <= i < len s → ∃ x, index s i = Some x ∧ s !! Z.to_nat i = Some x.
Proof.
  intros Hi. unfold index.
  destruct (Z.leb_spec 0 i); [|lia].
  destruct (Z.ltb_spec i (len s)); [|lia]. simpl.
  destruct (lookup_lt_is_Some_2 s (Z.to_nat i)) as [x Hx].
  - unfold len in Hi. lia.
  - exists x. by rewrite Hx.
Qed.

Lemma succ_in_range {A} (s : list A) (i : Z) :
  fits s → 0 <= i < len s → wrap (i + 1) = i + 1.
Proof.
  unfold fits. intros Hs Hi. apply wrap_id.
  unfold min_int, max_int in *. lia.
Qed.

Lemma demo_two_lines_fit : GoInt.fits ["line1"; "line2"].
Proof. vm_compute. discriminate. Defined.

End GoIntFacts.

(** ** One acquisition of the read lock *)

Section ReadNextLineFacts.

Import job_manager.

Implicit Types (r : LogReader) (w : World) (lg : Log).

(** A line is there: the loop is left and the line returned, whatever
    [blocking] is. *)
Lemma locked_line blocking r w lg :
  logs w !! log r = Some lg →
  GoInt.fits (Lines lg) →
  0 <= CurrentPosition r < GoInt.len (Lines lg) →
  ∃ s, Lines lg !! Z.to_nat (CurrentPosition r) = Some s ∧
       ReadNextLine_locked blocking r w =
         Ok (Return s true (mkLogReader (CurrentPosition r + 1) (log r))).
Proof.
  intros Hlg Hfit Hpos. unfold ReadNextLine_locked. rewrite Hlg.
  destruct (Z.ltb_spec (CurrentPosition r) (GoInt.len (Lines lg))); [|lia].
  rewrite orb_true_r.
  destruct (Z.geb_spec (CurrentPosition r) (GoInt.len (Lines lg))); [lia|].
  destruct (index_in_range (Lines lg) (CurrentPosition r) Hpos)
    as (s & -> & Hs).
  exists s. split; [done|].
  by rewrite (succ_in_range (Lines lg)).
Qed.

(** Nothing to read and no wish to wait. *)
Lemma locked_empty r w lg :
  logs w !! log r = Some lg →
  GoInt.len (Lines lg) <= CurrentPosition r →
  ReadNextLine_locked false r w = Ok (Return "" false r).
Proof.
  intros Hlg Hpos. unfold ReadNextLine_locked. rewrite Hlg. simpl.
  destruct (Z.geb_spec (CurrentPosition r) (GoInt.len (Lines lg))); [done|lia].
Qed.

(** Nothing to read yet, and the caller waits. *)
Lemma locked_sleep r w lg :
  logs w !! log r = Some lg →
  GoInt.len (Lines lg) <= CurrentPosition r →
  ReadNextLine_locked true r w = Ok Sleep.
Proof.
  intros Hlg Hpos. unfold ReadNextLine_locked. rewrite Hlg. simpl.
  destruct (Z.ltb_spec (CurrentPosition r) (GoInt.len (Lines lg))); [lia|done].
Qed.

(** A position below zero, which no call of this package produces, makes
    the indexing panic. *)
Lemma locked_negative blocking r w lg :
  logs w !! log r = Some lg →
  CurrentPosition r < 0 →
  ReadNextLine_locked blocking r w = Panic.
Proof.
  intros Hlg Hneg. unfold ReadNextLine_locked. rewrite Hlg.
  pose proof (len_nonneg (Lines lg)).
  destruct (Z.ltb_spec (CurrentPosition r) (GoInt.len (Lines lg))); [|lia].
  rewrite orb_true_r.
  destruct (Z.geb_spec (CurrentPosition r) (GoInt.len (Lines lg))); [lia|].
  unfold GoInt.index.
  by destruct (Z.leb_spec 0 (CurrentPosition r)); [lia|].
Qed.

(** The only way to [ok = false] leaves the cursor as it was. *)
Lemma locked_not_ok blocking r w s r' :
  ReadNextLine_locked blocking r w = Ok (Return s false r') →
  s = "" ∧ r' = r.
Proof.
  unfold ReadNextLine_locked.
  destruct (logs w !! log r) as [lg|]; [|done].
  destruct (negb blocking || _); [|done].
  destruct (_ >=? _); [by intros [= <- <-]|].
  destruct (GoInt.index _ _); done.
Qed.

Lemma ReadNextLine_from_returns fuel blocking r view k ret :
  ReadNextLine_from fuel blocking r view k = Some (Ok ret) →
  (k ≤ sleeps ret)%nat ∧
  ReadNextLine_locked blocking r (view (sleeps ret)) =
    Ok (Return (line ret) (ok ret) (reader ret)).
Proof.
  revert k. induction fuel as [|fuel IH]; intros k; simpl; [done|].
  destruct (ReadNextLine_locked blocking r (view k)) as [[|s b r']|] eqn:Hk.
  - intros H. apply IH in H as [? ?]. split; [lia|done].
  - intros [= <-]. simpl. by split.
  - done.
Qed.

End ReadNextLineFacts.

(** ** Reading one line *)

Section ReadNextLineSpec.

Import job_manager.

Implicit Types (r : LogReader) (w : World) (lg : Log).

(** C2.  When the cursor's position is below the length of the log,
    [ReadNextLine] returns the line stored at that position with
    [ok = true] and the position advanced by one, without sleeping, whatever
    [blocking] is.  When the position equals the length and the call is
    non-blocking it returns [ok = false] at once. *)
Theorem ReadNextLine_returns fuel blocking r (view : nat → World) lg :
  logs (view O) !! log r = Some lg →
  GoInt.fits (Lines lg) →
  0 <= CurrentPosition r →
  (CurrentPosition r < GoInt.len (Lines lg) →
     ∃ s, Lines lg !! Z.to_nat (CurrentPosition r) = Some s ∧
          ReadNextLine (S fuel) blocking r view =
            Some (Ok (mkReturned s true
                        (mkLogReader (CurrentPosition r + 1) (log r)) 0)))
  ∧ (CurrentPosition r = GoInt.len (Lines lg) →
     ReadNextLine (S fuel) false r view = Some (Ok (mkReturned "" false r 0))).
Proof.
  intros Hlg Hfit H0. split; intros Hpos.
  - destruct (locked_line blocking r (view O) lg Hlg Hfit) as (s & Hs & Hl);
      [lia|].
    exists s. split; [done|].
    unfold ReadNextLine. simpl. by rewrite Hl.
  - unfold ReadNextLine. simpl.
    rewrite (locked_empty r (view O) lg Hlg); [done|lia].
Qed.

Lemma ReadNextLine_returns_witness :
  ReadNextLine 1 true (mkLogReader 1 demo.log1) (fun _ => demo.two_lines) =
    Some (Ok (mkReturned "line2" true (mkLogReader 2 demo.log1) 0))
  ∧ ReadNextLine 1 false (mkLogReader 2 demo.log1) (fun _ => demo.two_lines) =
    Some (Ok (mkReturned "" false (mkLogReader 2 demo.log1) 0)).
Proof.
  split.
  - destruct (ReadNextLine_returns 0 true (mkLogReader 1 demo.log1)
                (fun _ => demo.two_lines) (mkLog ["line1"; "line2"]))
      as [H _]; [reflexivity | exact demo_two_lines_fit | simpl; lia |].
    destruct H as (s & Hs & H); [simpl; vm_compute; reflexivity|].
    injection Hs as <-. exact H.
  - destruct (ReadNextLine_returns 0 false (mkLogReader 2 demo.log1)
                (fun _ => demo.two_lines) (mkLog ["line1"; "line2"]))
      as [_ H]; [reflexivity | exact demo_two_lines_fit | simpl; lia |].
    apply H. reflexivity.
Defined.

(** C10.  A call of [ReadNextLine] that returns [ok = false] returns the
    empty line and leaves the cursor, hence its [CurrentPosition], as it
    was; taken as a step of a run, the acquisition at which it returns
    leaves the whole state, the log and every cursor, unchanged. *)
Theorem ReadNextLine_not_ok_no_effect fuel blocking r (view : nat → World)
    ret (s : run.State) client got :
  ReadNextLine fuel blocking r view = Some (Ok ret) →
  ok ret = false →
  CurrentPosition (reader ret) = CurrentPosition r
  ∧ reader ret = r
  ∧ line ret = ""
  ∧ (run.readers s !! client = Some (r, got) →
     run.world s = view (sleeps ret) →
     run.exec (run.DoReadNextLine client blocking) s = Ok s).
Proof.
  intros Hret Hok.
  apply ReadNextLine_from_returns in Hret as [_ Hl]. rewrite Hok in Hl.
  destruct (locked_not_ok _ _ _ _ _ Hl) as [Hline Hr].
  rewrite Hr. repeat split; [done|].
  intros Hc Hw. simpl. rewrite Hc, Hw, Hl. simpl.
  rewrite Hr, insert_id by done. destruct s; simpl in *. by rewrite Hw.
Qed.

End ReadNextLineSpec.

(** ** Waiting for a line *)

Section BlockingRead.

Import job_manager.

Implicit Types (r : LogReader) (w : World) (lg : Log).

Lemma ReadNextLine_not_ok_no_effect_witness :
  run.exec (run.DoReadNextLine 0 false)
    (run.mkState demo.two_lines
       {[ 0%nat := (mkLogReader 2 demo.log1, ["line1"; "line2"]) ]}) =
  Ok (run.mkState demo.two_lines
       {[ 0%nat := (mkLogReader 2 demo.log1, ["line1"; "line2"]) ]}).
Proof.
  destruct (ReadNextLine_not_ok_no_effect 1 false (mkLogReader 2 demo.log1)
              (fun _ => demo.two_lines)
              (mkReturned "" false (mkLogReader 2 demo.log1) 0)
              (run.mkState demo.two_lines
                 {[ 0%nat := (mkLogReader 2 demo.log1, ["line1"; "line2"]) ]})
              0%nat ["line1"; "line2"])
    as (_ & _ & _ & H); [vm_compute; reflexivity | reflexivity |].
  apply H; reflexivity.
Defined.

(** While every acquisition finds nothing to read, a blocking call goes
    back to sleep: [n] such acquisitions use up [n] units of fuel. *)
Lemma ReadNextLine_from_sleeps n fuel r (view : nat → World) k :
  (∀ i, (k ≤ i < k + n)%nat → ReadNextLine_locked true r (view i) = Ok Sleep) →
  ReadNextLine_from (n + fuel) true r view k =
  ReadNextLine_from fuel true r view (k + n).
Proof.
  revert k. induction n as [|n IH]; intros k Hs; simpl.
  - by rewrite Nat.add_0_r.
  - rewrite Hs by lia. rewrite IH.
    + f_equal. lia.
    + intros i Hi. apply Hs. lia.
Qed.

Lemma ReadNextLine_from_out_of_fuel n r (view : nat → World) k :
  (∀ i, (k ≤ i < k + n)%nat → ReadNextLine_locked true r (view i) = Ok Sleep) →
  ReadNextLine_from n true r view k = None.
Proof.
  intros Hs. rewrite <- (Nat.add_0_r n).
  by rewrite ReadNextLine_from_sleeps.
Qed.

(** C4, as the code has it.  A blocking [ReadNextLine] on a cursor with
    nothing to read tests the log again after each sleep of [sleep_ms]
    milliseconds.  If acquisition [k] is the first that finds a line at the
    cursor's position, the call returns exactly that line, with [ok = true]
    and the position advanced by one, after [k] sleeps, provided it is
    given more than [k] acquisitions; given [k] or fewer it is still
    waiting.  The test and the read use the same acquisition, so the line
    found is the line returned.  Nothing but a line at its position ends
    the call. *)
Theorem ReadNextLine_blocking_polls fuel r (view : nat → World) k lg :
  (∀ i, (i < k)%nat → nothing_new r view i) →
  logs (view k) !! log r = Some lg →
  GoInt.fits (Lines lg) →
  0 <= CurrentPosition r < GoInt.len (Lines lg) →
  (∃ s ret, Lines lg !! Z.to_nat (CurrentPosition r) = Some s
            ∧ ReadNextLine (k + S fuel) true r view = Some (Ok ret)
            ∧ ret = mkReturned s true
                      (mkLogReader (CurrentPosition r + 1) (log r)) k
            ∧ time_asleep ret = 10 * Z.of_nat k)
  ∧ (∀ n, (n ≤ k)%nat → ReadNextLine n true r view = None).
Proof.
  intros Hwait Hlg Hfit Hpos.
  assert (Hsl : ∀ i, (i < k)%nat → ReadNextLine_locked true r (view i) = Ok Sleep).
  { intros i Hi. destruct (Hwait i Hi) as (lg' & Hlg' & Hlen).
    by apply (locked_sleep r (view i) lg'). }
  split.
  - destruct (locked_line true r (view k) lg Hlg Hfit Hpos) as (s & Hs & Hl).
    exists s. eexists. split; [done|]. split; [|split; [reflexivity|done]].
    unfold ReadNextLine. rewrite ReadNextLine_from_sleeps.
    + simpl. by rewrite Hl.
    + intros i Hi. apply Hsl. lia.
  - intros n Hn. unfold ReadNextLine.
    apply ReadNextLine_from_out_of_fuel. intros i Hi. apply Hsl. lia.
Qed.

Lemma ReadNextLine_blocking_polls_witness :
  ReadNextLine 3 true (mkLogReader 0 demo.log1)
    (fun i => if (i <? 2)%nat then demo.silent else demo.two_lines) =
  Some (Ok (mkReturned "line1" true (mkLogReader 1 demo.log1) 2)).
Proof.
  destruct (ReadNextLine_blocking_polls 0 (mkLogReader 0 demo.log1)
              (fun i => if (i <? 2)%nat then demo.silent else demo.two_lines)
              2 (mkLog ["line1"; "line2"])) as [(s & ret & Hs & H & -> & _) _].
  - intros i Hi. exists (mkLog []).
    destruct i as [|[|i]];
      [split; [reflexivity | vm_compute; discriminate] .. | lia].
  - reflexivity.
  - exact demo_two_lines_fit.
  - simpl. vm_compute. split; [discriminate | reflexivity].
  - injection Hs as <-. exact H.
Defined.

(** C4, as the claim has it, fails.  [ReadNextLine] takes no context and
    no channel: on a log that stays empty a blocking call has not returned
    after any number of acquisitions, so nothing a client does can release
    it, and the number of wake-ups it makes has no bound. *)
Lemma ReadNextLine_blocking_cannot_be_released :
  ¬ ∃ fuel, ReadNextLine fuel true (mkLogReader 0 demo.log1)
              (fun _ => demo.silent) ≠ None.
Proof.
  intros [fuel H]. apply H. unfold ReadNextLine.
  apply ReadNextLine_from_out_of_fuel. intros i _. reflexivity.
Qed.

End BlockingRead.

(** ** The status of a job *)

Section JobStatusFacts.

Import job_manager.

Implicit Types (w : World) (j : Job).

Lemma GetStatus_set_Status w job j st :
  GetStatus job (set_jobs (insert job (set_Status st j)) w) = Ok st.
Proof. unfold GetStatus. simpl. by rewrite lookup_insert_eq. Qed.

(** [_monitorCompletion] writes the status it derives from the exit of the
    process whatever the status was. *)
Lemma _monitorCompletion_overwrites w job j wait_err :
  jobs w !! job = Some j →
  ∃ w', _monitorCompletion job wait_err w = Ok w' ∧
        GetStatus job w' =
          Ok (match wait_err with
              | Some _ => StatusFailed
              | None => StatusCompleted
              end).
Proof.
  intros Hj. unfold _monitorCompletion. rewrite Hj.
  destruct wait_err; eexists; (split; [done|]); apply GetStatus_set_Status.
Qed.

(** C3.  [Stop] on a job that is not running returns the "not running"
    error and changes nothing.  On a running job it asks the operating
    system to deliver an interrupt: if that is accepted the status is
    [StatusTerminated] when [Stop] returns, in the same step, and nothing
    else in the store changes; if it is refused [Stop] returns the error of
    the operating system and the store, with the status still
    [StatusRunning], is as before. *)
Theorem Stop_outcomes job signal_err w j :
  jobs w !! job = Some j →
  (Status j ≠ StatusRunning →
     Stop job signal_err w =
       Ok (Some (errors_New "job is not running or has already completed"), w))
  ∧ (Status j = StatusRunning → signal_err = None →
     ∃ w', Stop job signal_err w = Ok (None, w')
           ∧ GetStatus job w' = Ok StatusTerminated
           ∧ signalled w' = (job, os_Interrupt) :: signalled w
           ∧ jobs w' = <[job := set_Status StatusTerminated j]> (jobs w)
           ∧ logs w' = logs w
           ∧ goroutines w' = goroutines w)
  ∧ (∀ err, Status j = StatusRunning → signal_err = Some err →
     Stop job signal_err w = Ok (Some (from_os err), w)
     ∧ GetStatus job w = Ok StatusRunning).
Proof.
  intros Hj. unfold Stop. rewrite Hj. split; [|split].
  - intros Hst. by rewrite decide_True.
  - intros Hst ->. rewrite decide_False by (rewrite Hst; tauto).
    eexists. split; [done|]. split; [apply GetStatus_set_Status|done].
  - intros err Hst ->. rewrite decide_False by (rewrite Hst; tauto).
    split; [done|]. unfold GetStatus. by rewrite Hj, Hst.
Qed.

Lemma Stop_outcomes_witness :
  (∃ w', Stop demo.job1 None demo.silent = Ok (None, w')
         ∧ GetStatus demo.job1 w' = Ok StatusTerminated
         ∧ signalled w' = [(demo.job1, os_Interrupt)])
  ∧ Stop demo.job1 (Some "os: process already finished") demo.silent =
      Ok (Some (from_os "os: process already finished"), demo.silent).
Proof.
  split.
  - destruct (Stop_outcomes demo.job1 None demo.silent
                (mkJob (exec_Command "sleep" ["10"]) StatusRunning demo.log1))
      as (_ & H & _); [reflexivity|].
    destruct H as (w' & Hstop & Hst & Hsig & _); [reflexivity..|].
    exists w'. split; [exact Hstop|]. split; [exact Hst|exact Hsig].
  - destruct (Stop_outcomes demo.job1 (Some "os: process already finished")
                demo.silent
                (mkJob (exec_Command "sleep" ["10"]) StatusRunning demo.log1))
      as (_ & _ & H); [reflexivity|].
    apply H; reflexivity.
Defined.

(** C1, on the code.  A running job is stopped, which sets
    [StatusTerminated]; its process then dies of the interrupt and
    [_monitorCompletion], which does not look at the status it replaces,
    sets [StatusFailed].  The status has changed twice and has left a
    terminal value. *)
Theorem Stop_then_exit_statuses :
  run.statuses demo.job1
    [run.DoStop demo.job1 None;
     run.DoMonitorCompletion demo.job1 (Some "signal: interrupt")]
    (run.mkState demo.silent ∅)
  = Ok [StatusTerminated; StatusFailed]
  ∧ GetStatus demo.job1 demo.silent = Ok StatusRunning.
Proof. split; reflexivity. Qed.

End JobStatusFacts.

(** ** Starting a job *)

Section StartJobFacts.

Import job_manager.

Implicit Types (w : World) (os : launch).

(** [StartJob] returns an error exactly when a step of the launch failed,
    and then returns no job; a failure of a pipe leaves the store
    untouched. *)
Lemma StartJob_error_iff command args os w :
  let res := StartJob command args os w in
  (is_Some res.1.2 ↔ cannot_launch os)
  ∧ (is_Some res.1.2 → res.1.1 = None)
  ∧ (is_Some (StdoutPipe_err os) ∨ is_Some (StderrPipe_err os) → res.2 = w).
Proof.
  unfold StartJob, cannot_launch.
  destruct (StdoutPipe_err os) as [e1|], (StderrPipe_err os) as [e2|],
    (Start_err os) as [e3|]; simpl; repeat split;
    try done; try (intros; eauto; fail);
    try (intros [[? [=]]|[[? [=]]|[? [=]]]]; fail);
    try (intros [? [=]]; fail); try (intros [[? [=]]|[? [=]]]; fail).
Qed.

(** On success the job returned is in the store with [StatusRunning], and
    both background tasks have been started for it. *)
Lemma StartJob_success command args os w :
  ¬ cannot_launch os →
  ∃ job w', StartJob command args os w = ((Some job, None), w')
            ∧ GetStatus job w' = Ok StatusRunning
            ∧ jobs w !! job = None
            ∧ go_captureOutput job ∈ goroutines w'
            ∧ go_monitorCompletion job ∈ goroutines w'.
Proof.
  unfold cannot_launch, StartJob. intros Hok.
  destruct (StdoutPipe_err os) as [e1|]; [exfalso; eauto|].
  destruct (StderrPipe_err os) as [e2|]; [exfalso; eauto|].
  destruct (Start_err os) as [e3|]; [exfalso; eauto 6|].
  simpl. eexists _, _. split; [done|]. repeat split.
  - unfold GetStatus. simpl. by rewrite lookup_insert_eq.
  - apply not_elem_of_dom, is_fresh.
  - simpl. set_solver.
  - simpl. set_solver.
Qed.

(** C7, on the code.  The pipes are set up but the executable cannot be
    started.  [StartJob] returns the error and no job, yet the job it had
    already allocated stays in the store with [StatusRunning] together with
    its capture task, and no monitor exists to end it: a turn of the
    capture loop whose reads fail changes nothing and does not leave the
    loop. *)
Theorem StartJob_failed_Start_leaves_job :
  let os := mkLaunch None None (Some "no such file or directory") in
  let res := StartJob "/no/such/file" [] os empty_world in
  res.1 = (None, Some (from_os "no such file or directory"))
  ∧ GetStatus 1%positive res.2 = Ok StatusRunning
  ∧ goroutines res.2 = [go_captureOutput 1%positive]
  ∧ _captureOutput_turn 1%positive
      ("", read_failed "file already closed")
      ("", read_failed "file already closed") res.2 = Ok (Some res.2).
Proof. repeat split. Qed.

End StartJobFacts.

(** ** The log only grows *)

Section AppendOnly.

Import job_manager.

Implicit Types (w : World) (lg : Log) (s : run.State).

Lemma grows_refl w : grows w w.
Proof. intros l lg Hl. by exists lg. Qed.

Lemma grows_trans w1 w2 w3 : grows w1 w2 → grows w2 w3 → grows w1 w3.
Proof.
  intros H12 H23 l lg Hl.
  destruct (H12 l lg Hl) as (lg2 & Hl2 & Hp2).
  destruct (H23 l lg2 Hl2) as (lg3 & Hl3 & Hp3).
  exists lg3. split; [done|]. by etrans.
Qed.

Lemma grows_same_logs w w' : logs w' = logs w → grows w w'.
Proof. intros Heq l lg Hl. exists lg. by rewrite Heq. Qed.

Lemma AppendLine_lines l line w w' lg :
  logs w !! l = Some lg →
  AppendLine l line w = Ok w' →
  logs w' = <[l := mkLog (Lines lg ++ [line])]> (logs w)
  ∧ jobs w' = jobs w.
Proof. unfold AppendLine. intros ->. by intros [= <-]. Qed.

Lemma AppendLine_grows l line w w' : AppendLine l line w = Ok w' → grows w w'.
Proof.
  unfold AppendLine. destruct (logs w !! l) as [lg0|] eqn:Hl0; [|done].
  intros [= <-] l' lg Hl. simpl.
  destruct (decide (l = l')) as [<-|Hne].
  - rewrite lookup_insert_eq. eexists. split; [done|]. simpl.
    rewrite Hl0 in Hl. injection Hl as <-. by apply prefix_app_r.
  - rewrite lookup_insert_ne by done. by exists lg.
Qed.

(** What [StartJob] does to the store: nothing, or one fresh log and one
    fresh job that owns it. *)
Lemma StartJob_store command args os w :
  let w' := (StartJob command args os w).2 in
  w' = w
  ∨ (logs w' = <[fresh (dom (logs w)) := mkLog []]> (logs w)
     ∧ jobs w' = <[fresh (dom (jobs w)) :=
                    mkJob (exec_Command command args) StatusRunning
                      (fresh (dom (logs w)))]> (jobs w)).
Proof.
  unfold StartJob.
  destruct (StdoutPipe_err os); [by left|].
  destruct (StderrPipe_err os); [by left|].
  destruct (Start_err os); right; by split.
Qed.

Lemma StartJob_grows command args os w :
  grows w (StartJob command args os w).2.
Proof.
  destruct (StartJob_store command args os w) as [->|[Hl _]];
    [apply grows_refl|].
  intros l lg Hlg. exists lg. split; [|done]. rewrite Hl.
  rewrite lookup_insert_ne; [done|].
  intros <-. by apply (is_fresh (dom (logs w))), elem_of_dom.
Qed.

Lemma _monitorCompletion_logs job wait_err w w' :
  _monitorCompletion job wait_err w = Ok w' → logs w' = logs w.
Proof.
  unfold _monitorCompletion. destruct (jobs w !! job); [|done].
  destruct wait_err; by intros [= <-].
Qed.

Lemma Stop_logs job signal_err w r :
  Stop job signal_err w = Ok r → logs r.2 = logs w.
Proof.
  unfold Stop. destruct (jobs w !! job); [|done].
  destruct (decide _); [by intros [= <-]|].
  destruct signal_err; by intros [= <-].
Qed.

Lemma exec_grows e s s' :
  run.exec e s = Ok s' → grows (run.world s) (run.world s').
Proof.
  destruct e as [command args os|l line|job wait_err|job signal_err|c job|c b];
    simpl.
  - intros [= <-]. apply StartJob_grows.
  - destruct (AppendLine l line (run.world s)) as [w|] eqn:Ha; [|done].
    simpl. intros [= <-]. by apply (AppendLine_grows l line).
  - destruct (_monitorCompletion job wait_err (run.world s)) as [w|] eqn:Hm;
      [|done].
    simpl. intros [= <-]. by apply grows_same_logs, (_monitorCompletion_logs job wait_err).
  - destruct (Stop job signal_err (run.world s)) as [r|] eqn:Hs; [|done].
    simpl. intros [= <-]. by apply grows_same_logs, (Stop_logs job signal_err).
  - destruct (NewLogReader job (run.world s)); [|done].
    simpl. intros [= <-]. apply grows_refl.
  - destruct (run.readers s !! c) as [[r got]|]; [|done].
    destruct (ReadNextLine_locked b r (run.world s)) as [[|line ok r']|];
      [| |done]; simpl; intros [= <-]; apply grows_refl.
Qed.

Lemma execs_grows es s s' :
  run.execs es s = Ok s' → grows (run.world s) (run.world s').
Proof.
  revert s. induction es as [|e es IH]; intros s; simpl.
  - intros [= <-]. apply grows_refl.
  - destruct (run.exec e s) as [s1|] eqn:He; [|done]. simpl. intros Hes.
    eapply grows_trans; [by apply (exec_grows e)|by apply IH].
Qed.

Lemma prefix_index {A} (s t : list A) (i : Z) (x : A) :
  s `prefix_of` t → GoInt.index s i = Some x → GoInt.index t i = Some x.
Proof.
  intros Hp. unfold GoInt.index.
  destruct (Z.leb_spec 0 i); simpl; [|done].
  destruct (Z.ltb_spec i (GoInt.len s)); [|done].
  intros Hx. pose proof (prefix_length _ _ Hp).
  destruct (Z.ltb_spec i (GoInt.len t)).
  - by apply (prefix_lookup_Some s).
  - unfold GoInt.len in *. lia.
Qed.

(** C5.  [AppendLine] puts the new line after the lines already there and
    touches nothing else of the log; and over any run of the library
    (jobs started, lines appended, jobs stopped or completed, cursors
    created and read) a line once stored at an index is found at that
    index ever after, and the length of a log never decreases. *)
Theorem Log_append_only es s s' l lg :
  run.execs es s = Ok s' →
  logs (run.world s) !! l = Some lg →
  (∃ lg', logs (run.world s') !! l = Some lg'
          ∧ (∀ i x, GoInt.index (Lines lg) i = Some x →
                    GoInt.index (Lines lg') i = Some x)
          ∧ GoInt.len (Lines lg) <= GoInt.len (Lines lg'))
  ∧ (∀ line, ∃ w', AppendLine l line (run.world s) = Ok w'
                   ∧ logs w' !! l = Some (mkLog (Lines lg ++ [line]))
                   ∧ GoInt.len (Lines lg ++ [line]) = GoInt.len (Lines lg) + 1
                   ∧ GoInt.index (Lines lg ++ [line]) (GoInt.len (Lines lg))
                     = Some line).
Proof.
  intros Hes Hl. split.
  - destruct (execs_grows es s s' Hes l lg Hl) as (lg' & Hl' & Hp).
    exists lg'. split; [done|]. split.
    + intros i x. by apply prefix_index.
    + apply prefix_length in Hp. unfold GoInt.len. lia.
  - intros line. unfold AppendLine. rewrite Hl. eexists. split; [done|].
    simpl. rewrite lookup_insert_eq. split; [done|]. split.
    + rewrite len_app. reflexivity.
    + unfold GoInt.index. rewrite len_app.
      pose proof (len_nonneg (Lines lg)).
      destruct (Z.leb_spec 0 (GoInt.len (Lines lg))); [|lia].
      destruct (Z.ltb_spec (GoInt.len (Lines lg))
                  (GoInt.len (Lines lg) + GoInt.len [line])).
      * simpl. unfold GoInt.len. rewrite Nat2Z.id.
        by rewrite lookup_app_r, Nat.sub_diag.
      * unfold GoInt.len in *. simpl in *. lia.
Qed.

Lemma Log_append_only_witness :
  let s := run.mkState demo.two_lines ∅ in
  let es := [run.DoStop demo.job1 None; run.DoAppendLine demo.log1 "line3"] in
  let s' := match run.execs es s with Ok s' => s' | Panic => s end in
  ∃ lg', logs (run.world s') !! demo.log1 = Some lg'
         ∧ GoInt.index (Lines lg') 1 = Some "line2"
         ∧ 2 <= GoInt.len (Lines lg').
Proof.
  intros s es s'.
  destruct (Log_append_only es s s' demo.log1 (mkLog ["line1"; "line2"]))
    as [(lg' & Hl & Hi & Hn) _]; [reflexivity | reflexivity |].
  exists lg'. split; [exact Hl|]. split; [|exact Hn].
  apply Hi. reflexivity.
Defined.

End AppendOnly.

(** ** Cursors *)

Section Cursors.

Import job_manager.

Implicit Types (w : World) (lg : Log) (r : LogReader) (s : run.State).

(** What an acquisition of the read lock can end in, read off the code. *)
Lemma locked_inv blocking r w p :
  ReadNextLine_locked blocking r w = Ok p →
  ∃ lg, logs w !! log r = Some lg ∧
    match p with
    | Sleep => blocking = true ∧ GoInt.len (Lines lg) <= CurrentPosition r
    | Return line false r' =>
        line = "" ∧ r' = r ∧ blocking = false
        ∧ GoInt.len (Lines lg) <= CurrentPosition r
    | Return line true r' =>
        0 <= CurrentPosition r < GoInt.len (Lines lg)
        ∧ Lines lg !! Z.to_nat (CurrentPosition r) = Some line
        ∧ r' = mkLogReader (GoInt.wrap (CurrentPosition r + 1)) (log r)
    end.
Proof.
  unfold ReadNextLine_locked.
  destruct (logs w !! log r) as [lg|]; [|done]. intros Hp. exists lg.
  split; [done|]. revert Hp.
  destruct (Z.ltb_spec (CurrentPosition r) (GoInt.len (Lines lg))) as [Hlt|Hge].
  - rewrite orb_true_r.
    destruct (Z.geb_spec (CurrentPosition r) (GoInt.len (Lines lg))); [lia|].
    unfold GoInt.index.
    destruct (Z.leb_spec 0 (CurrentPosition r)); simpl; [|done].
    destruct (Z.ltb_spec (CurrentPosition r) (GoInt.len (Lines lg))); [|lia].
    destruct (Lines lg !! Z.to_nat (CurrentPosition r)) as [x|] eqn:Hx; [|done].
    intros [= <-]. repeat split; done || lia.
  - rewrite orb_false_r.
    destruct (Z.geb_spec (CurrentPosition r) (GoInt.len (Lines lg))); [|lia].
    destruct blocking; simpl; intros [= <-]; repeat split; done || lia.
Qed.

Lemma all_fit_grows w w' : grows w w' → all_fit w' → all_fit w.
Proof.
  intros Hg Hfit l lg Hl. destruct (Hg l lg Hl) as (lg' & Hl' & Hp).
  specialize (Hfit l lg' Hl'). apply prefix_length in Hp.
  unfold GoInt.fits, GoInt.len in *. lia.
Qed.

Lemma cursor_ok_grows w w' c : grows w w' → cursor_ok w c → cursor_ok w' c.
Proof.
  intros Hg (lg & Hl & Hpos & Hgot).
  destruct (Hg _ lg Hl) as (lg' & Hl' & Hp).
  exists lg'. split; [done|].
  pose proof (prefix_length _ _ Hp) as Hlen.
  split; [unfold GoInt.len in *; lia|].
  destruct Hp as [k ->]. rewrite take_app_le; [done|].
  unfold GoInt.len in *. lia.
Qed.

Lemma jobs_have_logs_empty : jobs_have_logs empty_world.
Proof. intros job j Hj. simpl in Hj. by rewrite lookup_empty in Hj. Qed.

Lemma StartJob_jobs_have_logs command args os w :
  jobs_have_logs w → jobs_have_logs (StartJob command args os w).2.
Proof.
  intros Hw. destruct (StartJob_store command args os w) as [->|[Hl Hj]];
    [done|].
  intros job j. rewrite Hj, Hl.
  destruct (decide (fresh (dom (jobs w)) = job)) as [<-|Hne].
  - rewrite lookup_insert_eq. intros [= <-]. simpl.
    by rewrite lookup_insert_eq.
  - rewrite lookup_insert_ne by done. intros Hjob.
    destruct (Hw job j Hjob) as [lg Hlg].
    destruct (decide (fresh (dom (logs w)) = job_Log j)) as [<-|Hnl].
    + by rewrite lookup_insert_eq.
    + rewrite lookup_insert_ne by done. by exists lg.
Qed.

Lemma set_Status_jobs_have_logs w job j st :
  jobs w !! job = Some j →
  jobs_have_logs w →
  jobs_have_logs (set_jobs (insert job (set_Status st j)) w).
Proof.
  intros Hj Hw job' j'. simpl.
  destruct (decide (job = job')) as [<-|Hne].
  - rewrite lookup_insert_eq. intros [= <-]. simpl. by apply (Hw job).
  - rewrite lookup_insert_ne by done. apply Hw.
Qed.

Lemma exec_jobs_have_logs e s s' :
  run.exec e s = Ok s' →
  jobs_have_logs (run.world s) → jobs_have_logs (run.world s').
Proof.
  destruct e as [command args os|l line|job wait_err|job signal_err|c job|c b];
    simpl.
  - intros [= <-]. apply StartJob_jobs_have_logs.
  - unfold AppendLine. destruct (logs (run.world s) !! l) as [lg0|] eqn:Hl0;
      [|done].
    simpl. intros [= <-] Hw job j Hj. simpl in *.
    destruct (Hw job j Hj) as [lg Hlg].
    destruct (decide (l = job_Log j)) as [<-|Hne].
    + by rewrite lookup_insert_eq.
    + rewrite lookup_insert_ne by done. by exists lg.
  - unfold _monitorCompletion.
    destruct (jobs (run.world s) !! job) as [j|] eqn:Hj; [|done].
    destruct wait_err; simpl; intros [= <-] Hw;
      by apply set_Status_jobs_have_logs.
  - unfold Stop.
    destruct (jobs (run.world s) !! job) as [j|] eqn:Hj; [|done].
    destruct (decide _); [by intros [= <-]|].
    destruct signal_err; simpl; intros [= <-] Hw; [done|].
    by apply (set_Status_jobs_have_logs (deliver job os_Interrupt (run.world s))).
  - destruct (NewLogReader job (run.world s)); [|done].
    simpl. by intros [= <-].
  - destruct (run.readers s !! c) as [[r got]|]; [|done].
    destruct (ReadNextLine_locked b r (run.world s)) as [[|line ok r']|];
      [| |done]; simpl; by intros [= <-].
Qed.

(** A step keeps the cursors right, as long as no log has outgrown
    [int]. *)
Lemma exec_cursors_ok e s s' :
  run.exec e s = Ok s' →
  all_fit (run.world s') →
  jobs_have_logs (run.world s) →
  cursors_ok s → cursors_ok s'.
Proof.
  intros He Hfit Hjobs Hs.
  pose proof (exec_grows e s s' He) as Hg.
  destruct e as [command args os|l line|job wait_err|job signal_err|c job|c b];
    simpl in He.
  - injection He as <-. intros client cur Hc.
    apply (cursor_ok_grows (run.world s)); [done|]. by apply (Hs client).
  - destruct (AppendLine l line (run.world s)) as [w|]; [|done].
    injection He as <-. intros client cur Hc.
    apply (cursor_ok_grows (run.world s)); [done|]. by apply (Hs client).
  - destruct (_monitorCompletion job wait_err (run.world s)) as [w|]; [|done].
    injection He as <-. intros client cur Hc.
    apply (cursor_ok_grows (run.world s)); [done|]. by apply (Hs client).
  - destruct (Stop job signal_err (run.world s)) as [r|]; [|done].
    injection He as <-. intros client cur Hc.
    apply (cursor_ok_grows (run.world s)); [done|]. by apply (Hs client).
  - unfold NewLogReader in He.
    destruct (jobs (run.world s) !! job) as [j|] eqn:Hj; [|done].
    injection He as <-. intros client cur. simpl.
    destruct (decide (c = client)) as [<-|Hne].
    + rewrite lookup_insert_eq. intros [= <-].
      destruct (Hjobs job j Hj) as [lg Hlg].
      exists lg. simpl. split; [done|].
      pose proof (len_nonneg (Lines lg)). split; [lia|done].
    + rewrite lookup_insert_ne by done. apply Hs.
  - destruct (run.readers s !! c) as [[r got]|] eqn:Hc; [|done].
    destruct (ReadNextLine_locked b r (run.world s)) as [p|] eqn:Hp; [|done].
    apply locked_inv in Hp as (lg & Hlg & Hp).
    destruct p as [|line ok r']; simpl in He; injection He as <-; [done|].
    intros client cur. simpl.
    destruct (decide (c = client)) as [<-|Hne];
      [|rewrite lookup_insert_ne by done; apply Hs].
    rewrite lookup_insert_eq. intros [= <-].
    destruct (Hs c _ Hc) as (lg0 & Hlg0 & Hpos & Hgot). simpl in *.
    rewrite Hlg in Hlg0. injection Hlg0 as <-.
    destruct ok.
    + destruct Hp as (Hin & Hline & ->).
      exists lg. simpl. split; [done|].
      rewrite (succ_in_range (Lines lg)); [|by apply (Hfit (log r))|done].
      split; [lia|].
      rewrite Z2Nat.inj_add, Nat.add_1_r by lia.
      rewrite (take_S_r _ _ line) by done. by rewrite Hgot.
    + destruct Hp as (_ & -> & _). by exists lg.
Qed.

Lemma execs_cursors_ok es s s' :
  run.execs es s = Ok s' →
  all_fit (run.world s') →
  jobs_have_logs (run.world s) →
  cursors_ok s →
  cursors_ok s' ∧ jobs_have_logs (run.world s').
Proof.
  revert s. induction es as [|e es IH]; intros s; simpl.
  - by intros [= <-].
  - destruct (run.exec e s) as [s1|] eqn:He; [|done]. simpl.
    intros Hes Hfit Hjobs Hs. apply (IH s1); [done..| |].
    + by apply (exec_jobs_have_logs e s).
    + apply (exec_cursors_ok e s); [done| |done..].
      eapply all_fit_grows; [by apply (execs_grows es)|done].
Qed.

Lemma take_prefix_total {A} (l : list A) (n m : nat) :
  take n l `prefix_of` take m l ∨ take m l `prefix_of` take n l.
Proof.
  destruct (Nat.le_gt_cases n m) as [Hle|Hgt].
  - left. replace n with (n `min` m)%nat by lia.
    rewrite <- take_take. apply prefix_take.
  - right. replace m with (m `min` n)%nat by lia.
    rewrite <- take_take. apply prefix_take.
Qed.

(** C6.  In any run that starts with no job and no cursor, so that every
    cursor comes from [NewLogReader], take two cursors over the same log.
    Each has returned exactly the lines of the log below its position, in
    order, so what each has read is a prefix of the log and one of the two
    is a prefix of the other; each position lies between [0] and the
    length of the log.  A read by any cursor leaves the store, hence the
    log, and every other cursor as they were.  A cursor just made by
    [NewLogReader] is at position [0] and has read nothing. *)
Theorem Cursors_read_prefixes es s' c1 c2 r1 r2 got1 got2 :
  run.execs es run.init = Ok s' →
  all_fit (run.world s') →
  run.readers s' !! c1 = Some (r1, got1) →
  run.readers s' !! c2 = Some (r2, got2) →
  log r1 = log r2 →
  (∃ lg, logs (run.world s') !! log r1 = Some lg
         ∧ got1 = take (Z.to_nat (CurrentPosition r1)) (Lines lg)
         ∧ got2 = take (Z.to_nat (CurrentPosition r2)) (Lines lg)
         ∧ got1 `prefix_of` Lines lg
         ∧ got2 `prefix_of` Lines lg
         ∧ (got1 `prefix_of` got2 ∨ got2 `prefix_of` got1)
         ∧ 0 <= CurrentPosition r1 <= GoInt.len (Lines lg)
         ∧ 0 <= CurrentPosition r2 <= GoInt.len (Lines lg))
  ∧ (∀ c blocking s'',
       run.exec (run.DoReadNextLine c blocking) s' = Ok s'' →
       run.world s'' = run.world s'
       ∧ ∀ c', c' ≠ c → run.readers s'' !! c' = run.readers s' !! c')
  ∧ (∀ c job s'',
       run.exec (run.DoNewLogReader c job) s' = Ok s'' →
       ∃ r j, run.readers s'' !! c = Some (r, [])
              ∧ CurrentPosition r = 0
              ∧ jobs (run.world s') !! job = Some j
              ∧ log r = job_Log j).
Proof.
  intros Hes Hfit H1 H2 Hsame.
  destruct (execs_cursors_ok es run.init s' Hes Hfit) as [Hok _].
  { apply jobs_have_logs_empty. }
  { intros client c Hc. simpl in Hc. by rewrite lookup_empty in Hc. }
  split; [|split].
  - destruct (Hok c1 _ H1) as (lg & Hlg & Hp1 & Hg1).
    destruct (Hok c2 _ H2) as (lg2 & Hlg2 & Hp2 & Hg2). simpl in *.
    rewrite <- Hsame, Hlg in Hlg2. injection Hlg2 as <-.
    exists lg. repeat split; try done; try lia.
    + rewrite Hg1. apply prefix_take.
    + rewrite Hg2. apply prefix_take.
    + rewrite Hg1, Hg2. apply take_prefix_total.
  - intros c blocking s''. simpl.
    destruct (run.readers s' !! c) as [[r got]|]; [|done].
    destruct (ReadNextLine_locked blocking r (run.world s')) as [[|line ok r']|];
      [| |done]; simpl; intros [= <-]; [done|].
    split; [done|]. intros c' Hne. simpl. by rewrite lookup_insert_ne.
  - intros c job s''. simpl. unfold NewLogReader.
    destruct (jobs (run.world s') !! job) as [j|]; [|done].
    simpl. intros [= <-]. exists (mkLogReader 0 (job_Log j)), j. simpl.
    by rewrite lookup_insert_eq.
Qed.

Lemma Cursors_read_prefixes_witness :
  let es :=
    [run.DoStartJob "seq" ["2"] demo.ok_launch;
     run.DoAppendLine demo.log1 "line1";
     run.DoNewLogReader 0 demo.job1;
     run.DoAppendLine demo.log1 "line2";
     run.DoNewLogReader 1 demo.job1;
     run.DoReadNextLine 0 true;
     run.DoReadNextLine 1 true;
     run.DoReadNextLine 0 false] in
  let s' := match run.execs es run.init with Ok s' => s' | Panic => run.init end in
  run.readers s' !! 0%nat = Some (mkLogReader 2 demo.log1, ["line1"; "line2"])
  ∧ run.readers s' !! 1%nat = Some (mkLogReader 1 demo.log1, ["line1"])
  ∧ (["line1"; "line2"] `prefix_of` ["line1"]
     ∨ ["line1"] `prefix_of` ["line1"; "line2"]).
Proof.
  intros es s'.
  destruct (Cursors_read_prefixes es s' 0%nat 1%nat
              (mkLogReader 2 demo.log1) (mkLogReader 1 demo.log1)
              ["line1"; "line2"] ["line1"])
    as [(lg & _ & _ & _ & _ & _ & H & _) _].
  - reflexivity.
  - intros l lg Hl.
    assert (Hlogs : logs (run.world s') =
                    {[ demo.log1 := mkLog ["line1"; "line2"] ]})
      by (vm_compute; reflexivity).
    rewrite Hlogs in Hl. apply lookup_singleton_Some in Hl as [_ <-].
    exact demo_two_lines_fit.
  - reflexivity.
  - reflexivity.
  - reflexivity.
  - split; [reflexivity|]. split; [reflexivity|]. exact H.
Defined.

End Cursors.

(** ** Reading the whole output *)

Section Output.

Import job_manager.

Implicit Types (w : World) (lg : Log) (r : LogReader).

(** While nothing is appended, the loop of [ReadAllLines] collects the
    lines from the cursor's position to the end of the log and stops. *)
Lemma ReadAllLines_loop_still fuel r acc w lg :
  logs w !! log r = Some lg →
  GoInt.fits (Lines lg) →
  0 <= CurrentPosition r <= GoInt.len (Lines lg) →
  (length (Lines lg) - Z.to_nat (CurrentPosition r) < fuel)%nat →
  ReadAllLines_loop fuel r acc (fun _ => w) =
    Some (Ok (acc ++ drop (Z.to_nat (CurrentPosition r)) (Lines lg))).
Proof.
  revert r acc. induction fuel as [|fuel IH]; intros r acc Hlg Hfit Hpos Hfuel;
    [lia|].
  cbn [ReadAllLines_loop]. unfold ReadNextLine. cbn [ReadNextLine_from].
  destruct (Z.eq_dec (CurrentPosition r) (GoInt.len (Lines lg))) as [Heq|Hne].
  - rewrite (locked_empty r w lg Hlg) by lia. simpl.
    rewrite drop_ge; [by rewrite app_nil_r|]. unfold GoInt.len in Heq. lia.
  - destruct (locked_line false r w lg Hlg Hfit) as (x & Hx & ->); [lia|].
    simpl.
    rewrite (IH (mkLogReader (CurrentPosition r + 1) (log r)) (acc ++ [x]));
      simpl; try done.
    + rewrite Z2Nat.inj_add, Nat.add_1_r by lia.
      rewrite (drop_S _ x _ Hx). by rewrite <- app_assoc.
    + lia.
    + unfold GoInt.len in *. lia.
Qed.

(** A non-blocking call returns at its first acquisition. *)
Lemma ReadNextLine_nonblocking fuel r (view : nat → World) :
  ReadNextLine (S fuel) false r view =
    match ReadNextLine_locked false r (view O) with
    | Ok (Return x b r') => Some (Ok (mkReturned x b r' 0))
    | _ => Some Panic
    end.
Proof.
  unfold ReadNextLine. simpl.
  destruct (ReadNextLine_locked false r (view O)) as [[|x b r']|] eqn:Hl;
    try done.
  by apply locked_inv in Hl as (lg & _ & [=] & _).
Qed.

(** With lines appended while the call runs, what the loop of
    [ReadAllLines] returns is the whole log as it is at the acquisition at
    which the loop ends. *)
Lemma ReadAllLines_loop_growing fuel r acc (view : nat → World) lines :
  (∀ i, all_fit (view i)) →
  (∀ i, grows (view i) (view (S i))) →
  cursor_ok (view O) (r, acc) →
  ReadAllLines_loop fuel r acc view = Some (Ok lines) →
  ∃ k lg, logs (view k) !! log r = Some lg ∧ lines = Lines lg.
Proof.
  revert r acc view.
  induction fuel as [|fuel IH]; intros r acc view Hfit Hgrow Hcur; [done|].
  cbn [ReadAllLines_loop]. rewrite ReadNextLine_nonblocking.
  destruct (ReadNextLine_locked false r (view O)) as [[|x b r']|] eqn:Hl;
    try done.
  apply locked_inv in Hl as (lg & Hlg & Hl).
  destruct Hcur as (lg0 & Hlg0 & Hpos & Hacc). simpl in *.
  rewrite Hlg in Hlg0. injection Hlg0 as <-.
  destruct b; simpl.
  - destruct Hl as (Hin & Hx & ->). intros Hloop.
    apply IH in Hloop as (k & lg' & Hk & ->).
    + by exists (S k), lg'.
    + intros i. apply Hfit.
    + intros i. apply Hgrow.
    + apply (cursor_ok_grows (view O)); [apply Hgrow|].
      exists lg. simpl. split; [done|].
      rewrite (succ_in_range (Lines lg)); [|by apply (Hfit O (log r))|done].
      split; [lia|].
      rewrite Z2Nat.inj_add, Nat.add_1_r by lia.
      rewrite (take_S_r _ _ x) by done. by rewrite Hacc.
  - destruct Hl as (_ & -> & _ & Hge). intros [= <-].
    exists O, lg. split; [done|].
    rewrite Hacc. apply take_ge. unfold GoInt.len in *. lia.
Qed.

Lemma flatten_concat lines :
  server.flatten lines = concat (map list_byte_of_string lines).
Proof.
  unfold server.flatten.
  assert (H : ∀ acc, fold_left (fun output line => output ++ list_byte_of_string line)
                       lines acc
                     = acc ++ concat (map list_byte_of_string lines)).
  { induction lines as [|x lines IH]; intros acc; simpl.
    - by rewrite app_nil_r.
    - by rewrite IH, app_assoc. }
  apply (H []).
Qed.

(** C8.  For a registered job, with nothing appended while the call runs,
    [ReadAllLines] returns exactly the lines of the job's log, in the order
    of the log, and [GetOutput] returns their bytes one line after the
    other: nothing added, lost, repeated or out of order.  The call
    returns as soon as it is given more turns than the log has lines. *)
Theorem GetOutput_all_lines fuel jobID (s : server.Server) job j lg :
  server.jobStore s !! jobID = Some (Some job) →
  jobs (server.world s) !! job = Some j →
  logs (server.world s) !! job_Log j = Some lg →
  GoInt.fits (Lines lg) →
  (length (Lines lg) < fuel)%nat →
  ReadAllLines fuel job (fun _ => server.world s) = Some (Ok (Lines lg))
  ∧ server.GetOutput fuel jobID s (fun _ => server.world s) =
      Some (Ok (Some (concat (map list_byte_of_string (Lines lg))), None)).
Proof.
  intros Hid Hj Hlg Hfit Hfuel.
  assert (Hall : ReadAllLines fuel job (fun _ => server.world s)
                 = Some (Ok (Lines lg))).
  { unfold ReadAllLines, NewLogReader. rewrite Hj.
    rewrite (ReadAllLines_loop_still fuel _ [] (server.world s) lg);
      simpl; try done.
    - pose proof (len_nonneg (Lines lg)). lia.
    - lia. }
  split; [done|].
  unfold server.GetOutput, server.GetJob. rewrite Hid, Hall.
  by rewrite flatten_concat.
Qed.

Lemma GetOutput_all_lines_witness :
  let s := server.mkServer {[ "4d5c9fa91db4" := Some demo.job1 ]}
             demo.two_lines in
  server.GetOutput 3 "4d5c9fa91db4" s (fun _ => server.world s) =
    Some (Ok (Some (list_byte_of_string "line1line2"), None)).
Proof.
  intros s.
  destruct (GetOutput_all_lines 3 "4d5c9fa91db4" s demo.job1
              (mkJob (exec_Command "sleep" ["10"]) StatusRunning demo.log1)
              (mkLog ["line1"; "line2"])) as [_ H].
  - reflexivity.
  - reflexivity.
  - reflexivity.
  - exact demo_two_lines_fit.
  - simpl. lia.
  - exact H.
Defined.

End Output.

(** ** The job store *)

Section JobStore.

Import job_manager.

Implicit Types (s : server.Server) (qs : list server.request).

(** What a start request does to the job store, by the answer of the
    library. *)
Lemma server_StartJob_store command args os id s :
  let started := StartJob command args os (server.world s) in
  let answer := server.StartJob command args os id s in
  server.world answer.2 = started.2
  ∧ match started.1.2 with
    | Some err =>
        answer.1 = ("", Some err)
        ∧ server.jobStore answer.2 = server.jobStore s
    | None =>
        answer.1 = (id, None)
        ∧ server.jobStore answer.2 = <[id := started.1.1]> (server.jobStore s)
    end.
Proof.
  unfold server.StartJob.
  destruct (StartJob command args os (server.world s)) as [[j [err|]] w];
    by simpl.
Qed.

(** An identifier that no request of [qs] was answered with is looked up
    after [qs] as before. *)
Lemma serve_other qs s id :
  id ∉ (server.registrations qs s).*1 →
  server.jobStore (server.serve qs s) !! id = server.jobStore s !! id.
Proof.
  revert s. induction qs as [|q qs IH]; intros s; [done|].
  simpl. rewrite fmap_app, not_elem_of_app. intros [Hq Hqs].
  unfold server.serve in *. rewrite IH by done.
  destruct q as [command args os id0|jobID]; [|done]. simpl in *.
  destruct (server_StartJob_store command args os id0 s) as [_ Hst].
  destruct ((StartJob command args os (server.world s)).1.2) as [err|].
  - destruct Hst as [_ ->]. done.
  - destruct Hst as [Ha ->]. rewrite Ha in Hq. simpl in Hq.
    rewrite lookup_insert_ne; [done|]. set_solver.
Qed.


(** While identifiers do not repeat, each stays bound to the job it was
    registered with. *)
Lemma serve_keeps qs s id j :
  NoDup (server.registrations qs s).*1 →
  (id, j) ∈ server.registrations qs s →
  server.jobStore (server.serve qs s) !! id = Some j.
Proof.
  revert s. induction qs as [|q qs IH]; intros s; simpl.
  - by intros _ ?%elem_of_nil.
  - rewrite fmap_app, elem_of_app. intros Hnd [Hq|Hqs].
    + apply NoDup_app in Hnd as (_ & Hdisj & _).
      unfold server.serve in *. simpl. rewrite serve_other.
      2: { apply Hdisj, list_elem_of_fmap. by exists (id, j). }
      destruct q as [command args os id0|jobID]; [|by apply elem_of_nil in Hq].
      simpl in *.
      destruct (server_StartJob_store command args os id0 s) as [_ Hst].
      destruct ((StartJob command args os (server.world s)).1.2) as [err|].
      * destruct Hst as [Ha _]. rewrite Ha in Hq. simpl in Hq.
        by apply elem_of_nil in Hq.
      * destruct Hst as [Ha ->]. rewrite Ha in Hq. simpl in Hq.
        apply list_elem_of_singleton in Hq as [= -> ->].
        by rewrite lookup_insert_eq.
    + apply NoDup_app in Hnd as (_ & _ & Hnd). by apply IH.
Qed.







End JobStore.

(** ** The capture task *)

Section Capture.

Import job_manager.

Implicit Types (w : World) (lg : Log) (j : Job).

Lemma readNextLine_accepted l chunk w :
  readNextLine l chunk.1 chunk.2 w =
    match accepted chunk with
    | [] => Ok w
    | x :: _ => AppendLine l x w
    end.
Proof.
  unfold readNextLine, accepted. destruct chunk as [bytes err]. simpl.
  destruct err; try done;
    by destruct (0 <? GoInt.len (list_ascii_of_string bytes)).
Qed.

Lemma accepted_short chunk :
  accepted chunk = [] ∨ accepted chunk = [chunk.1].
Proof.
  unfold accepted.
  destruct chunk.2; auto;
    destruct (0 <? GoInt.len (list_ascii_of_string chunk.1)); auto.
Qed.

(** What [readNextLine] does to the store. *)
Lemma readNextLine_effect l chunk w lg :
  logs w !! l = Some lg →
  ∃ w', readNextLine l chunk.1 chunk.2 w = Ok w'
        ∧ logs w' !! l = Some (mkLog (Lines lg ++ accepted chunk))
        ∧ (∀ l', l' ≠ l → logs w' !! l' = logs w !! l')
        ∧ jobs w' = jobs w
        ∧ goroutines w' = goroutines w
        ∧ signalled w' = signalled w.
Proof.
  intros Hl. rewrite readNextLine_accepted.
  destruct (accepted_short chunk) as [->| ->].
  - exists w. rewrite app_nil_r. destruct lg. by repeat split.
  - unfold AppendLine. rewrite Hl. eexists. split; [done|]. simpl.
    rewrite lookup_insert_eq. split; [done|]. split; [|done].
    intros l' Hne. by rewrite lookup_insert_ne.
Qed.

(** X1.  A turn of the capture loop on a job that is running appends to the
    job's log what was read from stdout and then what was read from stderr,
    leaving out a read that failed or was empty, and changes nothing else:
    no other log, no job, no status.  A turn on a job that is no longer
    running leaves the loop and changes nothing. *)
Theorem _captureOutput_turn_effect job out err w j lg :
  jobs w !! job = Some j →
  logs w !! job_Log j = Some lg →
  (Status j = StatusRunning →
     ∃ w', _captureOutput_turn job out err w = Ok (Some w')
           ∧ logs w' !! job_Log j
             = Some (mkLog (Lines lg ++ accepted out ++ accepted err))
           ∧ (∀ l', l' ≠ job_Log j → logs w' !! l' = logs w !! l')
           ∧ jobs w' = jobs w
           ∧ goroutines w' = goroutines w
           ∧ signalled w' = signalled w)
  ∧ (Status j ≠ StatusRunning → _captureOutput_turn job out err w = Ok None).
Proof.
  intros Hj Hl. unfold _captureOutput_turn. rewrite Hj. split; intros Hst.
  - rewrite decide_False by (rewrite Hst; tauto).
    destruct (readNextLine_effect (job_Log j) out w lg Hl)
      as (w1 & -> & Hl1 & Ho1 & Hj1 & Hg1 & Hs1). simpl.
    destruct (readNextLine_effect (job_Log j) err w1 _ Hl1)
      as (w2 & -> & Hl2 & Ho2 & Hj2 & Hg2 & Hs2).
    exists w2. simpl. split; [done|]. simpl in Hl2.
    rewrite <- app_assoc in Hl2. repeat split; try congruence.
    intros l' Hne. by rewrite Ho2, Ho1.
  - by rewrite decide_True.
Qed.

Lemma _captureOutput_turn_effect_witness :
  ∃ w', _captureOutput_turn demo.job1 ("line3", read_nil) ("", io_EOF)
          demo.two_lines = Ok (Some w')
        ∧ logs w' !! demo.log1 = Some (mkLog ["line1"; "line2"; "line3"]).
Proof.
  destruct (_captureOutput_turn_effect demo.job1 ("line3", read_nil) ("", io_EOF)
              demo.two_lines
              (mkJob (exec_Command "sleep" ["10"]) StatusRunning demo.log1)
              (mkLog ["line1"; "line2"])) as [H _]; [reflexivity..|].
  destruct H as (w' & Ht & Hl & _); [reflexivity|].
  exists w'. split; [exact Ht | exact Hl].
Defined.

(** X2.  A turn of the capture loop that stays in the loop changes the
    store exactly as the [AppendLine] steps for the chunks it accepted do,
    so what holds of every run holds with capture turns in between. *)
Theorem _captureOutput_turn_as_steps job out err w w' j readers :
  jobs w !! job = Some j →
  _captureOutput_turn job out err w = Ok (Some w') →
  run.execs (map (run.DoAppendLine (job_Log j)) (accepted out ++ accepted err))
    (run.mkState w readers) = Ok (run.mkState w' readers).
Proof.
  intros Hj. unfold _captureOutput_turn. rewrite Hj.
  destruct (decide _); [done|].
  rewrite readNextLine_accepted.
  destruct (accepted_short out) as [->| ->]; simpl.
  - rewrite readNextLine_accepted.
    destruct (accepted_short err) as [->| ->]; simpl; [by intros [= <-]|].
    destruct (AppendLine _ _ w) as [w1|]; [|done]. simpl. by intros [= <-].
  - destruct (AppendLine _ _ w) as [w1|]; [|done]. simpl.
    rewrite readNextLine_accepted.
    destruct (accepted_short err) as [->| ->]; simpl; [by intros [= <-]|].
    destruct (AppendLine _ _ w1) as [w2|]; [|done]. simpl. by intros [= <-].
Qed.

Lemma _captureOutput_turn_as_steps_witness :
  run.execs [run.DoAppendLine demo.log1 "out"; run.DoAppendLine demo.log1 "err"]
    (run.mkState demo.silent ∅) =
  Ok (run.mkState
        (set_logs (insert demo.log1 (mkLog ["out"; "err"])) demo.silent) ∅).
Proof.
  apply (_captureOutput_turn_as_steps demo.job1 ("out", read_nil) ("err", io_EOF)
           demo.silent
           (set_logs (insert demo.log1 (mkLog ["out"; "err"])) demo.silent)
           (mkJob (exec_Command "sleep" ["10"]) StatusRunning demo.log1) ∅);
    reflexivity.
Defined.

End Capture.

(** ** After a job has ended *)

Section Ended.

Import job_manager.

Implicit Types (w : World) (j : Job) (s : run.State).

Lemma Stop_not_running job signal_err w j :
  jobs w !! job = Some j →
  Status j ≠ StatusRunning →
  Stop job signal_err w =
    Ok (Some (errors_New "job is not running or has already completed"), w).
Proof. intros Hj Hst. unfold Stop. rewrite Hj. by rewrite decide_True. Qed.

Lemma _captureOutput_turn_not_running job out err w j :
  jobs w !! job = Some j →
  Status j ≠ StatusRunning →
  _captureOutput_turn job out err w = Ok None.
Proof.
  intros Hj Hst. unfold _captureOutput_turn. rewrite Hj. by rewrite decide_True.
Qed.

(** A [Stop] that succeeded, or the monitor, leaves the job with a status
    other than [StatusRunning]. *)
Lemma ended_not_running job w w1 :
  Stop job None w = Ok (None, w1)
  ∨ (∃ wait_err, _monitorCompletion job wait_err w = Ok w1) →
  ∃ j1, jobs w1 !! job = Some j1 ∧ Status j1 ≠ StatusRunning.
Proof.
  intros [Hstop|[wait_err Hmon]].
  - unfold Stop in Hstop. destruct (jobs w !! job) as [j|]; [|done].
    destruct (decide _); [done|]. injection Hstop as <-.
    eexists. simpl. by rewrite lookup_insert_eq.
  - unfold _monitorCompletion in Hmon. destruct (jobs w !! job) as [j|]; [|done].
    destruct wait_err; injection Hmon as <-; eexists; simpl;
      by rewrite lookup_insert_eq.
Qed.

(** X3.  Once [Stop] has succeeded on a job, or its monitor has recorded the
    exit of the process, every later [Stop] on it fails with the "not
    running" error whatever the operating system would answer, sends no
    signal and changes nothing, and the next turn of the capture loop
    leaves the loop. *)
Theorem Stop_after_end job w w1 signal_err out err :
  Stop job None w = Ok (None, w1)
  ∨ (∃ wait_err, _monitorCompletion job wait_err w = Ok w1) →
  Stop job signal_err w1 =
    Ok (Some (errors_New "job is not running or has already completed"), w1)
  ∧ _captureOutput_turn job out err w1 = Ok None.
Proof.
  intros Hend. destruct (ended_not_running job w w1 Hend) as (j1 & Hj1 & Hst).
  split.
  - by apply (Stop_not_running job signal_err w1 j1).
  - by apply (_captureOutput_turn_not_running job out err w1 j1).
Qed.

Lemma Stop_after_end_witness :
  let w1 := set_jobs (insert demo.job1
                        (mkJob (exec_Command "sleep" ["10"]) StatusTerminated
                           demo.log1))
              (deliver demo.job1 os_Interrupt demo.silent) in
  Stop demo.job1 None w1 =
    Ok (Some (errors_New "job is not running or has already completed"), w1)
  ∧ _captureOutput_turn demo.job1 ("late", read_nil) ("", io_EOF) w1 = Ok None.
Proof.
  intros w1.
  apply (Stop_after_end demo.job1 demo.silent w1 None ("late", read_nil)
           ("", io_EOF)).
  left. reflexivity.
Defined.

(** *** What no run undoes *)

Lemma jobs_settle_refl w : jobs_settle w w.
Proof. intros job j Hj. exists j. by repeat split. Qed.

Lemma jobs_settle_trans w1 w2 w3 :
  jobs_settle w1 w2 → jobs_settle w2 w3 → jobs_settle w1 w3.
Proof.
  intros H12 H23 job j Hj.
  destruct (H12 job j Hj) as (j2 & Hj2 & Hc2 & Hl2 & Hr2 & Hd2).
  destruct (H23 job j2 Hj2) as (j3 & Hj3 & Hc3 & Hl3 & Hr3 & Hd3).
  exists j3. repeat split; try congruence; auto.
Qed.

Lemma jobs_settle_same_jobs w w' : jobs w' = jobs w → jobs_settle w w'.
Proof. intros Heq job j Hj. exists j. rewrite Heq. by repeat split. Qed.

Lemma StartJob_settle command args os w :
  jobs_settle w (StartJob command args os w).2.
Proof.
  destruct (StartJob_store command args os w) as [->|[_ Hj]];
    [apply jobs_settle_refl|].
  intros job j Hjob. exists j. rewrite Hj. split; [|by repeat split].
  rewrite lookup_insert_ne; [done|].
  intros <-. by apply (is_fresh (dom (jobs w))), elem_of_dom.
Qed.

Lemma exec_settle e s s' :
  run.exec e s = Ok s' → jobs_settle (run.world s) (run.world s').
Proof.
  destruct e as [command args os|l line|job wait_err|job signal_err|c job|c b];
    simpl.
  - intros [= <-]. apply StartJob_settle.
  - unfold AppendLine. destruct (logs (run.world s) !! l); [|done].
    simpl. intros [= <-]. by apply jobs_settle_same_jobs.
  - unfold _monitorCompletion.
    destruct (jobs (run.world s) !! job) as [j0|] eqn:Hj0; [|done].
    assert (Hgen : ∀ st, st = StatusFailed ∨ st = StatusCompleted →
              jobs_settle (run.world s)
                (set_jobs (insert job (set_Status st j0)) (run.world s))).
    { intros st Hst job' j Hj. simpl.
      destruct (decide (job = job')) as [<-|Hne].
      - rewrite lookup_insert_eq. eexists. split; [done|].
        rewrite Hj0 in Hj. injection Hj as <-. simpl.
        split; [done|]. split; [done|].
        split; [|intros _]; destruct Hst as [-> | ->]; auto; done.
      - rewrite lookup_insert_ne by done. exists j. by repeat split. }
    destruct wait_err; simpl; intros [= <-]; apply Hgen; auto.
  - unfold Stop.
    destruct (jobs (run.world s) !! job) as [j0|] eqn:Hj0; [|done].
    destruct (decide _) as [Hnr|Hr]; [intros [= <-]; apply jobs_settle_refl|].
    destruct signal_err; simpl; intros [= <-]; [apply jobs_settle_refl|].
    intros job' j Hj. simpl in *.
    destruct (decide (job = job')) as [<-|Hne].
    + rewrite lookup_insert_eq. eexists. split; [done|].
      rewrite Hj0 in Hj. injection Hj as <-. simpl.
      assert (Status j0 = StatusRunning) as Hrun
        by (destruct (Status j0); try done; by destruct Hr).
      split; [done|]. split; [done|]. rewrite Hrun.
      split; [done|]. by intros [?|?].
    + rewrite lookup_insert_ne by done. exists j. by repeat split.
  - destruct (NewLogReader job (run.world s)); [|done].
    simpl. intros [= <-]. apply jobs_settle_refl.
  - destruct (run.readers s !! c) as [[r got]|]; [|done].
    destruct (ReadNextLine_locked b r (run.world s)) as [[|line ok r']|];
      [| |done]; simpl; intros [= <-]; apply jobs_settle_refl.
Qed.

(** X4.  Over any run, a job that exists stays in the store with the same
    command and the same log; once its status is not [StatusRunning] it is
    never [StatusRunning] again; and once it is [StatusCompleted] or
    [StatusFailed] it is never [StatusTerminated]. *)
Theorem run_jobs_settle es s s' :
  run.execs es s = Ok s' → jobs_settle (run.world s) (run.world s').
Proof.
  revert s. induction es as [|e es IH]; intros s; simpl.
  - intros [= <-]. apply jobs_settle_refl.
  - destruct (run.exec e s) as [s1|] eqn:He; [|done]. simpl. intros Hes.
    eapply jobs_settle_trans; [by apply (exec_settle e)|by apply IH].
Qed.

Lemma run_jobs_settle_witness :
  let s := run.mkState demo.silent ∅ in
  let es := [run.DoMonitorCompletion demo.job1 None;
             run.DoStop demo.job1 None;
             run.DoStartJob "echo" [] demo.ok_launch;
             run.DoMonitorCompletion demo.job1 (Some "exit status 1")] in
  let s' := match run.execs es s with Ok s' => s' | Panic => s end in
  jobs_settle (run.world s) (run.world s').
Proof.
  intros s es s'. apply (run_jobs_settle es s s'). reflexivity.
Defined.

End Ended.

(** ** One log per job *)

Section OwnLog.

Import job_manager.

Implicit Types (w : World) (j : Job) (r : LogReader) (s : run.State).

Lemma logs_exclusive_same_jobs w w' :
  jobs w' = jobs w → logs_exclusive w → logs_exclusive w'.
Proof. intros Heq Hw job1 job2 j1 j2. rewrite Heq. apply Hw. Qed.

Lemma set_Status_logs_exclusive w job j st :
  jobs w !! job = Some j →
  logs_exclusive w →
  logs_exclusive (set_jobs (insert job (set_Status st j)) w).
Proof.
  intros Hj Hw job1 job2 j1 j2. simpl.
  destruct (decide (job = job1)) as [<-|Hn1], (decide (job = job2)) as [<-|Hn2];
    rewrite ?lookup_insert_eq, ?lookup_insert_ne by done; try done.
  - intros [= <-] Hj2 Hlog. by apply (Hw job job2 j j2).
  - intros Hj1 [= <-] Hlog. by apply (Hw job1 job j1 j).
  - apply Hw.
Qed.

Lemma StartJob_logs_exclusive command args os w :
  jobs_have_logs w → logs_exclusive w →
  logs_exclusive (StartJob command args os w).2.
Proof.
  intros Hhave Hw.
  destruct (StartJob_store command args os w) as [->|[_ Hj]]; [done|].
  assert (Hold : ∀ job j, jobs w !! job = Some j →
                   job_Log j ≠ fresh (dom (logs w))).
  { intros job j Hjob Heq. destruct (Hhave job j Hjob) as [lg Hlg].
    apply (is_fresh (dom (logs w))). rewrite <- Heq. by apply elem_of_dom. }
  intros job1 job2 j1 j2. rewrite Hj.
  destruct (decide (fresh (dom (jobs w)) = job1)) as [<-|Hn1],
           (decide (fresh (dom (jobs w)) = job2)) as [<-|Hn2];
    rewrite ?lookup_insert_eq, ?lookup_insert_ne by done; try done.
  - intros [= <-] Hj2 Hlog. simpl in Hlog. by destruct (Hold job2 j2 Hj2).
  - intros Hj1 [= <-] Hlog. simpl in Hlog. by destruct (Hold job1 j1 Hj1).
  - apply Hw.
Qed.

Lemma exec_logs_exclusive e s s' :
  run.exec e s = Ok s' →
  jobs_have_logs (run.world s) →
  logs_exclusive (run.world s) → logs_exclusive (run.world s').
Proof.
  destruct e as [command args os|l line|job wait_err|job signal_err|c job|c b];
    simpl.
  - intros [= <-]. apply StartJob_logs_exclusive.
  - unfold AppendLine. destruct (logs (run.world s) !! l); [|done].
    simpl. intros [= <-] _. by apply logs_exclusive_same_jobs.
  - unfold _monitorCompletion.
    destruct (jobs (run.world s) !! job) as [j|] eqn:Hj; [|done].
    destruct wait_err; simpl; intros [= <-] _;
      by apply set_Status_logs_exclusive.
  - unfold Stop.
    destruct (jobs (run.world s) !! job) as [j|] eqn:Hj; [|done].
    destruct (decide _); [by intros [= <-]|].
    destruct signal_err; simpl; intros [= <-] _; [done|].
    by apply (set_Status_logs_exclusive (deliver job os_Interrupt (run.world s))).
  - destruct (NewLogReader job (run.world s)); [|done].
    simpl. by intros [= <-].
  - destruct (run.readers s !! c) as [[r got]|]; [|done].
    destruct (ReadNextLine_locked b r (run.world s)) as [[|line ok r']|];
      [| |done]; simpl; by intros [= <-].
Qed.

Lemma execs_logs_exclusive es s s' :
  run.execs es s = Ok s' →
  jobs_have_logs (run.world s) →
  logs_exclusive (run.world s) →
  jobs_have_logs (run.world s') ∧ logs_exclusive (run.world s').
Proof.
  revert s. induction es as [|e es IH]; intros s; simpl.
  - by intros [= <-].
  - destruct (run.exec e s) as [s1|] eqn:He; [|done]. simpl.
    intros Hes Hhave Hex. apply (IH s1); [done| |].
    + by apply (exec_jobs_have_logs e s).
    + by apply (exec_logs_exclusive e s).
Qed.

Lemma run_own_log_aux es s' :
  run.execs es run.init = Ok s' →
  jobs_have_logs (run.world s') ∧ logs_exclusive (run.world s').
Proof.
  intros Hes. apply (execs_logs_exclusive es run.init s' Hes).
  - apply jobs_have_logs_empty.
  - intros job1 job2 j1 j2 Hj1. simpl in Hj1. by rewrite lookup_empty in Hj1.
Qed.

(** X5.  In any run that starts from the empty store every job has a log of
    its own: the log of each job is allocated, and two different jobs never
    have the same log. *)
Theorem run_own_log es s' :
  run.execs es run.init = Ok s' →
  jobs_have_logs (run.world s') ∧ logs_exclusive (run.world s').
Proof. apply run_own_log_aux. Qed.

Lemma run_own_log_witness :
  let es := [run.DoStartJob "echo" ["a"] demo.ok_launch;
             run.DoStartJob "/no/such/file" []
               (mkLaunch None None (Some "no such file or directory"));
             run.DoStartJob "echo" ["b"] demo.ok_launch] in
  let s' := match run.execs es run.init with Ok s' => s' | Panic => run.init end in
  jobs_have_logs (run.world s') ∧ logs_exclusive (run.world s').
Proof.
  intros es s'. apply (run_own_log es s'). reflexivity.
Defined.

(** *** Output of one job is not seen through another *)

Lemma locked_ext blocking r w w' :
  logs w !! log r = logs w' !! log r →
  ReadNextLine_locked blocking r w = ReadNextLine_locked blocking r w'.
Proof. unfold ReadNextLine_locked. by intros ->. Qed.

Lemma locked_same_log blocking r w x b r' :
  ReadNextLine_locked blocking r w = Ok (Return x b r') → log r' = log r.
Proof.
  intros H. apply locked_inv in H as (lg & _ & H).
  destruct b; [by destruct H as (_ & _ & ->)|by destruct H as (_ & -> & _)].
Qed.

Lemma ReadNextLine_from_ext fuel blocking r (view view' : nat → World) k :
  (∀ i, logs (view i) !! log r = logs (view' i) !! log r) →
  ReadNextLine_from fuel blocking r view k =
  ReadNextLine_from fuel blocking r view' k.
Proof.
  intros Hv. revert k. induction fuel as [|fuel IH]; intros k; simpl; [done|].
  rewrite (locked_ext blocking r (view k) (view' k)) by done.
  destruct (ReadNextLine_locked blocking r (view' k)) as [[|x b r']|]; auto.
Qed.

Lemma ReadAllLines_loop_ext fuel r acc (view view' : nat → World) :
  (∀ i, logs (view i) !! log r = logs (view' i) !! log r) →
  ReadAllLines_loop fuel r acc view = ReadAllLines_loop fuel r acc view'.
Proof.
  revert r acc view view'.
  induction fuel as [|fuel IH]; intros r acc view view' Hv; [done|].
  cbn [ReadAllLines_loop]. unfold ReadNextLine.
  rewrite (ReadNextLine_from_ext _ _ _ view view') by done.
  destruct (ReadNextLine_from (S fuel) false r view' 0) as [[ret|]|] eqn:Hr;
    try done.
  destruct (ok ret); simpl; [|done].
  apply ReadNextLine_from_returns in Hr as [_ Hl].
  apply locked_same_log in Hl. apply IH. intros i. rewrite Hl. apply Hv.
Qed.

Lemma AppendLine_frame l x w w' :
  AppendLine l x w = Ok w' →
  jobs w' = jobs w ∧ ∀ l', l' ≠ l → logs w' !! l' = logs w !! l'.
Proof.
  unfold AppendLine. destruct (logs w !! l); [|done]. intros [= <-].
  split; [done|]. intros l' Hne. simpl. by rewrite lookup_insert_ne.
Qed.

Lemma readNextLine_frame l chunk w w' :
  readNextLine l chunk.1 chunk.2 w = Ok w' →
  jobs w' = jobs w ∧ ∀ l', l' ≠ l → logs w' !! l' = logs w !! l'.
Proof.
  rewrite readNextLine_accepted.
  destruct (accepted chunk) as [|x ?]; [by intros [= <-]|].
  apply AppendLine_frame.
Qed.

Lemma _captureOutput_turn_frame job out err w w' j :
  jobs w !! job = Some j →
  _captureOutput_turn job out err w = Ok (Some w') →
  jobs w' = jobs w ∧ ∀ l', l' ≠ job_Log j → logs w' !! l' = logs w !! l'.
Proof.
  intros Hj. unfold _captureOutput_turn. rewrite Hj.
  destruct (decide _); [done|].
  destruct (readNextLine (job_Log j) out.1 out.2 w) as [w1|] eqn:H1; [|done].
  simpl.
  destruct (readNextLine (job_Log j) err.1 err.2 w1) as [w2|] eqn:H2; [|done].
  simpl. intros [= <-].
  apply readNextLine_frame in H1 as [Hj1 Hl1].
  apply readNextLine_frame in H2 as [Hj2 Hl2].
  split; [congruence|]. intros l' Hne. by rewrite Hl2, Hl1.
Qed.

(** X6.  In a store reached by a run from the empty store, a turn of the
    capture loop of one job changes neither the status of another job nor
    what [ReadAllLines] returns for it: output captured for one job is never
    read through another. *)
Theorem capture_is_per_job es s job1 job2 out err w' fuel :
  run.execs es run.init = Ok s →
  job1 ≠ job2 →
  is_Some (jobs (run.world s) !! job2) →
  _captureOutput_turn job1 out err (run.world s) = Ok (Some w') →
  GetStatus job2 w' = GetStatus job2 (run.world s)
  ∧ ReadAllLines fuel job2 (fun _ => w') =
    ReadAllLines fuel job2 (fun _ => run.world s).
Proof.
  intros Hes Hne [j2 Hj2] Hturn.
  destruct (run_own_log_aux es s Hes) as [_ Hex].
  assert (∃ j1, jobs (run.world s) !! job1 = Some j1) as [j1 Hj1].
  { unfold _captureOutput_turn in Hturn.
    destruct (jobs (run.world s) !! job1) as [j1|]; [by exists j1|done]. }
  destruct (_captureOutput_turn_frame job1 out err _ w' j1 Hj1 Hturn)
    as [Hjobs Hlogs].
  assert (Hdiff : job_Log j2 ≠ job_Log j1).
  { intros Heq. apply Hne. symmetry. by apply (Hex job2 job1 j2 j1). }
  unfold GetStatus, ReadAllLines, NewLogReader. rewrite Hjobs, Hj2.
  split; [done|].
  apply ReadAllLines_loop_ext. intros i. simpl. by apply Hlogs.
Qed.

Lemma capture_is_per_job_witness :
  let es := [run.DoStartJob "echo" ["a"] demo.ok_launch;
             run.DoStartJob "echo" ["b"] demo.ok_launch;
             run.DoAppendLine 2%positive "b"] in
  let s := match run.execs es run.init with Ok s => s | Panic => run.init end in
  let w' := match _captureOutput_turn 1%positive ("a", read_nil) ("", io_EOF)
                    (run.world s) with
            | Ok (Some w') => w'
            | _ => run.world s
            end in
  ReadAllLines 2 2%positive (fun _ => w') = Some (Ok ["b"])
  ∧ ReadAllLines 2 1%positive (fun _ => w') = Some (Ok ["a"]).
Proof.
  intros es s w'.
  destruct (capture_is_per_job es s 1%positive 2%positive ("a", read_nil)
              ("", io_EOF) w' 2) as [_ H].
  - reflexivity.
  - discriminate.
  - eexists. reflexivity.
  - reflexivity.
  - split; [|reflexivity]. rewrite H. reflexivity.
Defined.

End OwnLog.

(** ** More on reading *)

Section Reading.

Import job_manager.

Implicit Types (w : World) (lg : Log) (r : LogReader).

Lemma ReadNextLine_from_slept fuel blocking r (view : nat → World) k ret :
  ReadNextLine_from fuel blocking r view k = Some (Ok ret) →
  ∀ i, (k ≤ i < sleeps ret)%nat →
       ReadNextLine_locked blocking r (view i) = Ok Sleep.
Proof.
  revert k. induction fuel as [|fuel IH]; intros k; simpl; [done|].
  destruct (ReadNextLine_locked blocking r (view k)) as [[|x b r']|] eqn:Hk.
  - intros H i Hi. destruct (decide (i = k)) as [->|Hne]; [done|].
    apply (IH (S k)); [done|lia].
  - intros [= <-] i Hi. simpl in Hi. lia.
  - done.
Qed.

(** X7.  A blocking [ReadNextLine] that returns always returns a line:
    [ok] is [true], the line is the one stored at the cursor's position in
    the log as it is at the acquisition at which the call returns, the
    position moves on by one, and every earlier acquisition found nothing at
    that position.  So the [ok] that [SubscribeOutput] drops is never
    [false]. *)
Theorem ReadNextLine_blocking_ok fuel r (view : nat → World) ret :
  ReadNextLine fuel true r view = Some (Ok ret) →
  ok ret = true
  ∧ (∃ lg, logs (view (sleeps ret)) !! log r = Some lg
           ∧ GoInt.index (Lines lg) (CurrentPosition r) = Some (line ret))
  ∧ reader ret = mkLogReader (GoInt.wrap (CurrentPosition r + 1)) (log r)
  ∧ (∀ i, (i < sleeps ret)%nat → nothing_new r view i).
Proof.
  intros Hret. unfold ReadNextLine in Hret.
  pose proof (ReadNextLine_from_slept _ _ _ _ _ _ Hret) as Hslept.
  apply ReadNextLine_from_returns in Hret as [_ Hl].
  apply locked_inv in Hl as (lg & Hlg & Hl).
  destruct (ok ret).
  - destruct Hl as (Hin & Hline & Hr). split; [done|]. split; [|split; [done|]].
    + exists lg. split; [done|].
      destruct (index_in_range (Lines lg) (CurrentPosition r) Hin)
        as (x & Hx & Hx'). congruence.
    + intros i Hi. specialize (Hslept i ltac:(lia)).
      apply locked_inv in Hslept as (lg' & Hlg' & _ & Hlen). by exists lg'.
  - by destruct Hl as (_ & _ & [=] & _).
Qed.

Lemma ReadNextLine_blocking_ok_witness :
  ok (mkReturned "line1" true (mkLogReader 1 demo.log1) 2) = true
  ∧ nothing_new (mkLogReader 0 demo.log1)
      (fun i => if (i <? 2)%nat then demo.silent else demo.two_lines) 1.
Proof.
  destruct (ReadNextLine_blocking_ok 3 (mkLogReader 0 demo.log1)
              (fun i => if (i <? 2)%nat then demo.silent else demo.two_lines)
              (mkReturned "line1" true (mkLogReader 1 demo.log1) 2))
    as (Hok & _ & _ & Hw); [reflexivity|].
  split; [exact Hok|]. apply Hw. simpl. lia.
Defined.

Lemma grows_from_start (view : nat → World) k :
  (∀ i, grows (view i) (view (S i))) → grows (view O) (view k).
Proof.
  intros Hg. induction k as [|k IH]; [apply grows_refl|].
  eapply grows_trans; [exact IH|apply Hg].
Qed.

(** X8.  Let lines be appended while [ReadAllLines] runs, the logs only
    growing from one acquisition of the lock to the next.  If the call
    returns, what it returns is the whole log of the job as it is at one of
    these acquisitions, and so begins with everything the log held when the
    call started. *)
Theorem ReadAllLines_growing fuel job j (view : nat → World) lines lg0 :
  (∀ i, all_fit (view i)) →
  (∀ i, grows (view i) (view (S i))) →
  jobs (view O) !! job = Some j →
  logs (view O) !! job_Log j = Some lg0 →
  ReadAllLines fuel job view = Some (Ok lines) →
  Lines lg0 `prefix_of` lines
  ∧ ∃ k lg, logs (view k) !! job_Log j = Some lg ∧ lines = Lines lg.
Proof.
  intros Hfit Hgrow Hj Hlg0. unfold ReadAllLines, NewLogReader. rewrite Hj.
  intros Hloop.
  apply ReadAllLines_loop_growing in Hloop as (k & lg & Hk & ->); try done.
  - simpl in Hk. split; [|by exists k, lg].
    destruct (grows_from_start view k Hgrow _ _ Hlg0) as (lg' & Hlg' & Hp).
    rewrite Hk in Hlg'. by injection Hlg' as <-.
  - exists lg0. simpl. split; [done|].
    pose proof (len_nonneg (Lines lg0)). split; [lia|done].
Qed.

Lemma all_fit_singleton w l lg :
  logs w = {[ l := lg ]} → GoInt.fits (Lines lg) → all_fit w.
Proof.
  intros Hw Hfit l' lg'. rewrite Hw.
  by intros [_ <-]%lookup_singleton_Some.
Qed.

Lemma grows_singleton w w' l lg lg' :
  logs w = {[ l := lg ]} →
  logs w' !! l = Some lg' →
  Lines lg `prefix_of` Lines lg' →
  grows w w'.
Proof.
  intros Hw Hw' Hp l0 lg0. rewrite Hw.
  intros [<- <-]%lookup_singleton_Some. by exists lg'.
Qed.

Lemma ReadAllLines_growing_witness :
  let one_line := set_logs (insert demo.log1 (mkLog ["line1"])) demo.silent in
  let view := fun i : nat =>
                if (i <? 1)%nat then one_line else demo.two_lines in
  ReadAllLines 3 demo.job1 view = Some (Ok ["line1"; "line2"])
  ∧ ["line1"] `prefix_of` ["line1"; "line2"].
Proof.
  intros one_line view. split; [reflexivity|].
  destruct (ReadAllLines_growing 3 demo.job1
              (mkJob (exec_Command "sleep" ["10"]) StatusRunning demo.log1)
              view ["line1"; "line2"] (mkLog ["line1"])) as [H _].
  - intros i. unfold view. destruct (i <? 1)%nat.
    + apply (all_fit_singleton _ demo.log1 (mkLog ["line1"]));
        [reflexivity | vm_compute; discriminate].
    + apply (all_fit_singleton _ demo.log1 (mkLog ["line1"; "line2"]));
        [reflexivity | exact demo_two_lines_fit].
  - intros i. unfold view. destruct i as [|i]; simpl.
    + apply (grows_singleton _ _ demo.log1 (mkLog ["line1"])
               (mkLog ["line1"; "line2"])); [reflexivity..|].
      by exists ["line2"].
    + apply grows_refl.
  - reflexivity.
  - reflexivity.
  - reflexivity.
  - exact H.
Defined.

End Reading.

(** ** The handlers of the server *)

Section Handlers.

Import job_manager.

Implicit Types (s : server.Server) (w : World) (lg : Log) (r : LogReader).

Lemma GetJob_unknown jobID s :
  server.jobStore s !! jobID = None →
  server.GetJob jobID s = (None, Some (errors_New "job not found")).
Proof. unfold server.GetJob. by intros ->. Qed.

(** X9.  After any sequence of start requests and lookups served from the
    empty store, an identifier that no start request was answered with is
    unknown to every handler: [QueryStatus] and [GetOutput] return the error
    "job not found", [SubscribeOutput] returns it without sending anything,
    and [Stop] answers with status "error" and that message, no error of
    its own, and the server unchanged. *)
Theorem handlers_unknown_job qs jobID fuel signal_err
    (view : nat → World) (send : nat → option error) :
  let s := server.serve qs server.init in
  jobID ∉ (server.registrations qs server.init).*1 →
  server.QueryStatus jobID s = Ok (None, Some (errors_New "job not found"))
  ∧ server.GetOutput fuel jobID s view
    = Some (Ok (None, Some (errors_New "job not found")))
  ∧ server.SubscribeOutput fuel jobID s view send
    = ([], server.Returned (errors_New "job not found"))
  ∧ server.Stop jobID signal_err s
    = Ok ((server.mkJobStopResponse "error" "job not found", None), s).
Proof.
  intros s Hnot.
  assert (Hget : server.GetJob jobID s = (None, Some (errors_New "job not found"))).
  { apply GetJob_unknown. unfold s. rewrite serve_other by done.
    apply lookup_empty. }
  unfold server.QueryStatus, server.GetOutput, server.SubscribeOutput,
    server.Stop. by rewrite Hget.
Qed.

Lemma handlers_unknown_job_witness :
  let qs := [server.Register "echo" ["hi"] demo.ok_launch "4d5c9fa91db4"] in
  server.Stop "a2f3d7865b4e" None (server.serve qs server.init)
  = Ok ((server.mkJobStopResponse "error" "job not found", None),
        server.serve qs server.init).
Proof.
  intros qs.
  destruct (handlers_unknown_job qs "a2f3d7865b4e" 1 None
              (fun _ => empty_world) (fun _ => None)) as (_ & _ & _ & H).
  - apply (bool_decide_unpack _). vm_compute. reflexivity.
  - exact H.
Defined.

(** What a successful start leaves in the server. *)
Lemma server_StartJob_success command args os id s :
  ¬ cannot_launch os →
  ∃ job w', StartJob command args os (server.world s) = ((Some job, None), w')
            ∧ server.StartJob command args os id s
              = ((id, None),
                 server.mkServer (<[id := Some job]> (server.jobStore s)) w')
            ∧ GetStatus job w' = Ok StatusRunning.
Proof.
  intros Hok.
  destruct (StartJob_success command args os (server.world s) Hok)
    as (job & w' & Heq & Hst & _).
  exists job, w'. split; [done|]. split; [|done].
  unfold server.StartJob. by rewrite Heq.
Qed.

Lemma execs_settle es st st' :
  run.execs es st = Ok st' → jobs_settle (run.world st) (run.world st').
Proof.
  revert st. induction es as [|e es IH]; intros st; simpl.
  - intros [= <-]. apply jobs_settle_refl.
  - destruct (run.exec e st) as [st1|] eqn:He; [|done]. simpl. intros Hes.
    eapply jobs_settle_trans; [by apply (exec_settle e)|by apply IH].
Qed.

(** X10.  A job through the handlers.  When the launch succeeds, [Start]
    returns the identifier drawn and [QueryStatus] on it then answers
    "running".  [Stop] with the signal accepted answers "stopped", and in
    the state it returns [QueryStatus] answers "terminated".  From then on,
    after any further steps of the library (the monitor recording the exit
    of the process among them) and as long as the identifier still names
    the job, [QueryStatus] answers with a status that is not "running", and
    every [Stop] answers "error" with the "not running" message and changes
    nothing. *)
Theorem handlers_lifecycle command args os id s :
  ¬ cannot_launch os →
  ∃ s1 s2 job,
    server.Start command args os id s = ((Some id, None), s1)
    ∧ server.QueryStatus id s1 = Ok (Some (id, "running"), None)
    ∧ server.Stop id None s1
      = Ok ((server.mkJobStopResponse "stopped" "Job successfully stopped",
             None), s2)
    ∧ server.QueryStatus id s2 = Ok (Some (id, "terminated"), None)
    ∧ server.jobStore s2 !! id = Some (Some job)
    ∧ ∀ es readers st s3 signal_err,
        run.execs es (run.mkState (server.world s2) readers) = Ok st →
        server.world s3 = run.world st →
        server.jobStore s3 !! id = Some (Some job) →
        (∃ status, server.QueryStatus id s3
                   = Ok (Some (id, JobStatus_string status), None)
                   ∧ status ≠ StatusRunning
                   ∧ JobStatus_string status ≠ "running")
        ∧ server.Stop id signal_err s3
          = Ok ((server.mkJobStopResponse "error"
                   "job is not running or has already completed", None), s3).
Proof.
  intros Hok.
  destruct (server_StartJob_success command args os id s Hok)
    as (job & w' & Hlib & Hsrv & Hst).
  unfold GetStatus in Hst.
  destruct (jobs w' !! job) as [j|] eqn:Hj; [|done].
  injection Hst as Hst.
  eexists _, _, job. split; [|split; [|split; [|split; [|split]]]].
  - unfold server.Start. by rewrite Hsrv.
  - unfold server.QueryStatus, server.GetJob. simpl.
    rewrite lookup_insert_eq. unfold GetStatus. rewrite Hj. simpl.
    by rewrite Hst.
  - unfold server.Stop, server.GetJob. simpl. rewrite lookup_insert_eq.
    unfold Stop. rewrite Hj.
    destruct (decide (Status j ≠ StatusRunning)) as [Hn|_]; [done|].
    simpl. reflexivity.
  - unfold server.QueryStatus, server.GetJob. simpl.
    rewrite lookup_insert_eq. unfold GetStatus. simpl.
    by rewrite lookup_insert_eq.
  - simpl. by rewrite lookup_insert_eq.
  - intros es readers st s3 signal_err Hes Hw3 Hid3.
    apply execs_settle in Hes. simpl in Hes.
    destruct (Hes job (set_Status StatusTerminated j))
      as (j3 & Hj3 & _ & _ & Hnr & _); [simpl; by rewrite lookup_insert_eq|].
    rewrite <- Hw3 in Hj3.
    assert (Hnr3 : Status j3 ≠ StatusRunning) by (by apply Hnr).
    split.
    + exists (Status j3).
      unfold server.QueryStatus, server.GetJob, GetStatus.
      rewrite Hid3, Hj3. simpl. split; [done|]. split; [done|].
      by destruct (Status j3).
    + unfold server.Stop, server.GetJob. rewrite Hid3.
      rewrite (Stop_not_running job signal_err (server.world s3) j3) by done.
      simpl. by destruct s3.
Qed.

Lemma handlers_lifecycle_witness :
  ∃ s1 s2,
    server.Start "sleep" ["10"] demo.ok_launch "4d5c9fa91db4" server.init
    = ((Some "4d5c9fa91db4", None), s1)
    ∧ server.Stop "4d5c9fa91db4" None s1
      = Ok ((server.mkJobStopResponse "stopped" "Job successfully stopped",
             None), s2)
    ∧ ∃ status,
        server.QueryStatus "4d5c9fa91db4"
          (server.mkServer (server.jobStore s2)
             (match _monitorCompletion demo.job1 (Some "signal: interrupt")
                      (server.world s2) with
              | Ok w => w
              | Panic => server.world s2
              end))
        = Ok (Some ("4d5c9fa91db4", JobStatus_string status), None)
        ∧ JobStatus_string status ≠ "running".
Proof.
  destruct (handlers_lifecycle "sleep" ["10"] demo.ok_launch "4d5c9fa91db4"
              server.init) as (s1 & s2 & job & H1 & _ & H3 & _ & H5 & H6).
  - intros [[x Hx]|[[x Hx]|[x Hx]]]; discriminate Hx.
  - exists s1, s2. split; [exact H1|]. split; [exact H3|].
    vm_compute in H1. injection H1 as <-.
    vm_compute in H3. injection H3 as <-.
    vm_compute in H5. injection H5 as <-.
    destruct (H6 [run.DoMonitorCompletion demo.job1 (Some "signal: interrupt")]
                ∅
                (run.mkState
                   (match _monitorCompletion demo.job1 (Some "signal: interrupt")
                            (server.world
                               (server.mkServer
                                  {[ "4d5c9fa91db4" := Some demo.job1 ]}
                                  (set_jobs
                                     (insert demo.job1
                                        (mkJob (exec_Command "sleep" ["10"])
                                           StatusTerminated demo.log1))
                                     (deliver demo.job1 os_Interrupt
                                        demo.silent)))) with
                    | Ok w => w
                    | Panic => demo.silent
                    end) ∅)
                (server.mkServer {[ "4d5c9fa91db4" := Some demo.job1 ]}
                   (match _monitorCompletion demo.job1 (Some "signal: interrupt")
                            (set_jobs
                               (insert demo.job1
                                  (mkJob (exec_Command "sleep" ["10"])
                                     StatusTerminated demo.log1))
                               (deliver demo.job1 os_Interrupt demo.silent)) with
                    | Ok w => w
                    | Panic => demo.silent
                    end))
                None) as [(status & Hq & _ & Hs) _];
      [reflexivity | reflexivity | reflexivity |].
    exists status. split; [exact Hq | exact Hs].
Defined.

(** X11.  The [Stop] handler never returns an error of its own: what went
    wrong is told in the response.  It never touches the job store, its
    status is "stopped" or "error", and when it is "error" the whole
    server is as before. *)
Theorem Stop_handler_reports jobID signal_err s resp err s' :
  server.Stop jobID signal_err s = Ok ((resp, err), s') →
  err = None
  ∧ server.jobStore s' = server.jobStore s
  ∧ (server.resp_Status resp = "stopped" ∨ server.resp_Status resp = "error")
  ∧ (server.resp_Status resp = "error" → s' = s).
Proof.
  unfold server.Stop.
  destruct (server.GetJob jobID s) as [[job|] [e|]].
  - intros [= <- <- <-]. repeat split; auto.
  - destruct (Stop job signal_err (server.world s)) as [[[e|] w']|] eqn:Hstop;
      simpl; [| |done]; intros [= <- <- <-]; simpl.
    + repeat split; auto. intros _.
      unfold Stop in Hstop.
      destruct (jobs (server.world s) !! job) as [j|]; [|done].
      destruct (decide _); [injection Hstop as _ <-; by destruct s|].
      destruct signal_err; [injection Hstop as _ <-; by destruct s|done].
    + repeat split; auto. done.
  - intros [= <- <- <-]. repeat split; auto.
  - done.
Qed.

Lemma Stop_handler_reports_witness :
  let s := server.mkServer {[ "4d5c9fa91db4" := Some demo.job1 ]} demo.silent in
  server.jobStore s = server.jobStore s ∧ s = s.
Proof.
  intros s.
  destruct (Stop_handler_reports "4d5c9fa91db4"
              (Some "os: process already finished") s
              (server.mkJobStopResponse "error" "os: process already finished")
              None s) as (_ & Hstore & _ & Hsame); [reflexivity|].
  split; [exact Hstore|]. apply Hsame. reflexivity.
Defined.

(** X12.  A start request whose launch fails registers nothing: [Start]
    returns the error of the operating system and no identifier, even the
    identifier drawn for it stays unknown if it was, and every lookup
    answers as before. *)
Theorem Start_failure_registers_nothing command args os id s :
  cannot_launch os →
  ∃ err s', server.Start command args os id s = ((None, Some (from_os err)), s')
            ∧ server.jobStore s' = server.jobStore s
            ∧ ∀ jobID, server.GetJob jobID s' = server.GetJob jobID s.
Proof.
  intros Hfail.
  destruct (server_StartJob_store command args os id s) as [_ Hst].
  pose proof (StartJob_error_iff command args os (server.world s))
    as (Herr & _ & _). simpl in Herr.
  apply Herr in Hfail as [e He]. rewrite He in Hst. destruct Hst as [Ha Hs].
  assert (∃ err, e = from_os err) as [err ->].
  { revert He. unfold StartJob.
    destruct (StdoutPipe_err os) as [e1|]; [intros [= <-]; by exists e1|].
    destruct (StderrPipe_err os) as [e2|]; [intros [= <-]; by exists e2|].
    destruct (Start_err os) as [e3|]; [intros [= <-]; by exists e3|done]. }
  exists err, (server.StartJob command args os id s).2.
  split; [|split; [done|]].
  - unfold server.Start.
    destruct (server.StartJob command args os id s) as [[i e] s'].
    simpl in *. by injection Ha as -> ->.
  - intros jobID. unfold server.GetJob. by rewrite Hs.
Qed.

Lemma Start_failure_registers_nothing_witness :
  ∃ s', server.Start "/no/such/file" []
          (mkLaunch None None (Some "no such file or directory"))
          "4d5c9fa91db4" server.init
        = ((None, Some (from_os "no such file or directory")), s')
        ∧ server.GetJob "4d5c9fa91db4" s'
          = (None, Some (errors_New "job not found")).
Proof.
  destruct (Start_failure_registers_nothing "/no/such/file" []
              (mkLaunch None None (Some "no such file or directory"))
              "4d5c9fa91db4" server.init) as (err & s' & H1 & _ & H3).
  - right. right. by eexists.
  - exists s'. split.
    + rewrite H1. vm_compute in H1. injection H1 as -> _. reflexivity.
    + rewrite H3. reflexivity.
Defined.

End Handlers.

(** ** Streaming the output *)

Section Subscribe.

Import job_manager.

Implicit Types (s : server.Server) (w : World) (lg : Log) (r : LogReader).

(** A blocking read on a log that holds a line at the cursor and does not
    change returns at once. *)
Lemma ReadNextLine_still_line fuel r w lg :
  logs w !! log r = Some lg →
  GoInt.fits (Lines lg) →
  0 <= CurrentPosition r < GoInt.len (Lines lg) →
  ∃ x, Lines lg !! Z.to_nat (CurrentPosition r) = Some x
       ∧ ReadNextLine (S fuel) true r (fun _ => w) =
           Some (Ok (mkReturned x true
                       (mkLogReader (CurrentPosition r + 1) (log r)) 0)).
Proof.
  intros Hlg Hfit Hpos.
  destruct (locked_line true r w lg Hlg Hfit Hpos) as (x & Hx & Hl).
  exists x. split; [done|]. unfold ReadNextLine. simpl. by rewrite Hl.
Qed.

(** A blocking read at the end of a log that does not change never
    returns. *)
Lemma ReadNextLine_still_end fuel r w lg :
  logs w !! log r = Some lg →
  GoInt.len (Lines lg) <= CurrentPosition r →
  ReadNextLine fuel true r (fun _ => w) = None.
Proof.
  intros Hlg Hpos. unfold ReadNextLine.
  apply ReadNextLine_from_out_of_fuel. intros i _.
  by apply (locked_sleep r w lg).
Qed.

Lemma SubscribeOutput_loop_all fuel r sent w lg (send : nat → option error) :
  logs w !! log r = Some lg →
  GoInt.fits (Lines lg) →
  0 <= CurrentPosition r <= GoInt.len (Lines lg) →
  (∀ k, send k = None) →
  (length (Lines lg) - Z.to_nat (CurrentPosition r) ≤ fuel)%nat →
  server.SubscribeOutput_loop fuel r (fun _ => w) send sent =
    (sent ++ map list_byte_of_string (drop (Z.to_nat (CurrentPosition r)) (Lines lg)),
     server.StillServing).
Proof.
  intros Hlg Hfit Hpos Hsend. revert r sent Hlg Hpos.
  induction fuel as [|fuel IH]; intros r sent Hlg Hpos Hfuel.
  - simpl. rewrite drop_ge by lia. by rewrite app_nil_r.
  - cbn [server.SubscribeOutput_loop].
    destruct (Z.eq_dec (CurrentPosition r) (GoInt.len (Lines lg))) as [Heq|Hne].
    + rewrite (ReadNextLine_still_end _ r w lg) by (done || lia).
      rewrite drop_ge by (unfold GoInt.len in Heq; lia).
      by rewrite app_nil_r.
    + destruct (ReadNextLine_still_line fuel r w lg Hlg Hfit) as (x & Hx & ->);
        [lia|].
      rewrite Hsend. simpl.
      rewrite (IH (mkLogReader (CurrentPosition r + 1) (log r))); simpl;
        try done.
      * rewrite Z2Nat.inj_add, Nat.add_1_r by lia.
        rewrite (drop_S _ x _ Hx). simpl. by rewrite <- app_assoc.
      * lia.
      * unfold GoInt.len in *. lia.
Qed.

Lemma SubscribeOutput_loop_fails fuel r sent w lg (send : nat → option error)
    k err :
  logs w !! log r = Some lg →
  GoInt.fits (Lines lg) →
  0 <= CurrentPosition r →
  Z.to_nat (CurrentPosition r) = length sent →
  (length sent ≤ k < length (Lines lg))%nat →
  send k = Some err →
  (∀ i, (i < k)%nat → send i = None) →
  (k - length sent < fuel)%nat →
  server.SubscribeOutput_loop fuel r (fun _ => w) send sent =
    (sent ++ map list_byte_of_string (take (k - length sent)
                          (drop (length sent) (Lines lg))),
     server.Returned err).
Proof.
  intros Hlg Hfit. revert r sent Hlg.
  induction fuel as [|fuel IH]; intros r sent Hlg Hpos Hlen Hk Herr Hsend Hfuel;
    [lia|].
  cbn [server.SubscribeOutput_loop].
  destruct (ReadNextLine_still_line fuel r w lg Hlg Hfit) as (x & Hx & ->).
  { unfold GoInt.len. lia. }
  destruct (decide (length sent = k)) as [Heq|Hne].
  - rewrite Heq, Herr, Nat.sub_diag. simpl. by rewrite app_nil_r.
  - rewrite Hsend by lia. simpl.
    rewrite (IH (mkLogReader (CurrentPosition r + 1) (log r))); simpl;
      try done.
    + rewrite length_app. simpl.
      rewrite Hlen in Hx. rewrite (drop_S _ x _ Hx).
      replace (k - length sent)%nat with (S (k - (length sent + 1)))%nat by lia.
      simpl. rewrite <- app_assoc. simpl.
      by rewrite Nat.add_1_r.
    + lia.
    + rewrite length_app. simpl. lia.
    + rewrite length_app. simpl. lia.
    + rewrite length_app. simpl. lia.
Qed.

(** X13.  [SubscribeOutput] on a registered job whose log no longer changes,
    with a client that accepts every message: once it has had as many turns
    as the log has lines it has sent every line of the log exactly once, in
    the order of the log, each as one message; and however long it runs it
    does not return, whatever the status of the job. *)
Theorem SubscribeOutput_streams_log fuel jobID s job j lg
    (send : nat → option error) :
  server.jobStore s !! jobID = Some (Some job) →
  jobs (server.world s) !! job = Some j →
  logs (server.world s) !! job_Log j = Some lg →
  GoInt.fits (Lines lg) →
  (∀ k, send k = None) →
  (length (Lines lg) ≤ fuel)%nat →
  server.SubscribeOutput fuel jobID s (fun _ => server.world s) send =
    (map list_byte_of_string (Lines lg), server.StillServing).
Proof.
  intros Hid Hj Hlg Hfit Hsend Hfuel.
  unfold server.SubscribeOutput, server.GetJob, NewLogReader.
  rewrite Hid, Hj.
  rewrite (SubscribeOutput_loop_all fuel _ [] (server.world s) lg); simpl;
    try done.
  - pose proof (len_nonneg (Lines lg)). lia.
  - lia.
Qed.

Lemma SubscribeOutput_streams_log_witness :
  let s := server.mkServer {[ "4d5c9fa91db4" := Some demo.job1 ]}
             demo.two_lines in
  server.SubscribeOutput 5 "4d5c9fa91db4" s (fun _ => server.world s)
    (fun _ => None)
  = ([list_byte_of_string "line1"; list_byte_of_string "line2"], server.StillServing).
Proof.
  intros s.
  apply (SubscribeOutput_streams_log 5 "4d5c9fa91db4" s demo.job1
           (mkJob (exec_Command "sleep" ["10"]) StatusRunning demo.log1)
           (mkLog ["line1"; "line2"]));
    [reflexivity | reflexivity | reflexivity | exact demo_two_lines_fit
    | reflexivity | simpl; lia].
Defined.

(** X14.  [SubscribeOutput] ends only through [stream.Send]: if the [k]-th
    message is the first one refused and the log holds more than [k] lines,
    the call returns the error of that [Send] after the first [k] lines of
    the log were sent, in order. *)
Theorem SubscribeOutput_send_fails fuel jobID s job j lg
    (send : nat → option error) k err :
  server.jobStore s !! jobID = Some (Some job) →
  jobs (server.world s) !! job = Some j →
  logs (server.world s) !! job_Log j = Some lg →
  GoInt.fits (Lines lg) →
  send k = Some err →
  (∀ i, (i < k)%nat → send i = None) →
  (k < length (Lines lg))%nat →
  (k < fuel)%nat →
  server.SubscribeOutput fuel jobID s (fun _ => server.world s) send =
    (map list_byte_of_string (take k (Lines lg)), server.Returned err).
Proof.
  intros Hid Hj Hlg Hfit Herr Hsend Hk Hfuel.
  unfold server.SubscribeOutput, server.GetJob, NewLogReader.
  rewrite Hid, Hj.
  rewrite (SubscribeOutput_loop_fails fuel _ [] (server.world s) lg send k err);
    simpl; try done; try lia.
  by rewrite Nat.sub_0_r.
Qed.

Lemma SubscribeOutput_send_fails_witness :
  let s := server.mkServer {[ "4d5c9fa91db4" := Some demo.job1 ]}
             demo.two_lines in
  server.SubscribeOutput 2 "4d5c9fa91db4" s (fun _ => server.world s)
    (fun i => if (i <? 1)%nat then None
              else Some (errors_New "transport is closing"))
  = ([list_byte_of_string "line1"], server.Returned (errors_New "transport is closing")).
Proof.
  intros s.
  apply (SubscribeOutput_send_fails 2 "4d5c9fa91db4" s demo.job1
           (mkJob (exec_Command "sleep" ["10"]) StatusRunning demo.log1)
           (mkLog ["line1"; "line2"]) _ 1).
  - reflexivity.
  - reflexivity.
  - reflexivity.
  - exact demo_two_lines_fit.
  - reflexivity.
  - intros i Hi. destruct i; [reflexivity|lia].
  - simpl. lia.
  - lia.
Defined.

End Subscribe.

(** ** Signals *)

Section Signals.

Import job_manager.

Implicit Types (w : World) (j : Job) (s : run.State).

Lemma signalled_once_settle w w' :
  signalled w' = signalled w → jobs_settle w w' →
  signalled_once w → signalled_once w'.
Proof.
  intros Hsig Hset [Hnd Hst]. split; rewrite Hsig; [done|].
  intros job sg Hin. destruct (Hst job sg Hin) as (j & Hj & Hnr).
  destruct (Hset job j Hj) as (j' & Hj' & _ & _ & Hkeep & _).
  exists j'. split; [done|]. by apply Hkeep.
Qed.

Lemma exec_signalled_once e s s' :
  run.exec e s = Ok s' →
  signalled_once (run.world s) → signalled_once (run.world s').
Proof.
  intros He. pose proof (exec_settle e s s' He) as Hset. revert He.
  destruct e as [command args os|l line|job wait_err|job signal_err|c job|c b];
    simpl.
  - intros [= <-]. apply signalled_once_settle; [|done].
    destruct (StartJob_store command args os (run.world s)) as [->|_]; [done|].
    unfold StartJob.
    destruct (StdoutPipe_err os); [done|]. destruct (StderrPipe_err os); [done|].
    by destruct (Start_err os).
  - destruct (AppendLine l line (run.world s)) as [w|] eqn:Ha; [|done].
    simpl. intros [= <-]. apply signalled_once_settle; [|done].
    unfold AppendLine in Ha. destruct (logs (run.world s) !! l); [|done].
    by injection Ha as <-.
  - destruct (_monitorCompletion job wait_err (run.world s)) as [w|] eqn:Hm;
      [|done].
    simpl. intros [= <-]. apply signalled_once_settle; [|done].
    unfold _monitorCompletion in Hm.
    destruct (jobs (run.world s) !! job); [|done].
    destruct wait_err; by injection Hm as <-.
  - unfold Stop.
    destruct (jobs (run.world s) !! job) as [j0|] eqn:Hj0; [|done].
    destruct (decide _) as [Hnr|Hr]; [by intros [= <-]|].
    destruct signal_err; simpl; intros [= <-]; [done|].
    intros [Hnd Hst]. split; simpl.
    + apply NoDup_cons. split; [|done].
      intros Hin. destruct (Hst job os_Interrupt Hin) as (j & Hj & Hnr).
      rewrite Hj0 in Hj. injection Hj as <-. by destruct Hr.
    + intros job' sg. rewrite elem_of_cons. intros [[= -> ->]|Hin].
      * eexists. by rewrite lookup_insert_eq.
      * destruct (Hst job' sg Hin) as (j & Hj & Hnr).
        destruct (decide (job = job')) as [<-|Hne].
        -- eexists. by rewrite lookup_insert_eq.
        -- exists j. by rewrite lookup_insert_ne.
  - destruct (NewLogReader job (run.world s)); [|done].
    simpl. by intros [= <-].
  - destruct (run.readers s !! c) as [[r got]|]; [|done].
    destruct (ReadNextLine_locked b r (run.world s)) as [[|line ok r']|];
      [| |done]; simpl; by intros [= <-].
Qed.

(** X15.  In any run that starts from the empty store no process is sent
    the interrupt twice, and every job whose process was sent it is no
    longer running: [Stop] signals a job at most once, whatever else
    happens in between. *)
Theorem run_signalled_once es s' :
  run.execs es run.init = Ok s' → signalled_once (run.world s').
Proof.
  assert (Hgen : ∀ s, run.execs es s = Ok s' →
                      signalled_once (run.world s) →
                      signalled_once (run.world s')).
  { induction es as [|e es IH]; intros s; simpl.
    - by intros [= <-].
    - destruct (run.exec e s) as [s1|] eqn:He; [|done]. simpl.
      intros Hes Hs. apply (IH s1 Hes). by apply (exec_signalled_once e s). }
  intros Hes. apply (Hgen run.init Hes). split; simpl.
  - apply NoDup_nil_2.
  - by intros job sg ?%elem_of_nil.
Qed.

Lemma run_signalled_once_witness :
  let es := [run.DoStartJob "sleep" ["10"] demo.ok_launch;
             run.DoStop demo.job1 None;
             run.DoStop demo.job1 None;
             run.DoMonitorCompletion demo.job1 (Some "signal: interrupt");
             run.DoStop demo.job1 None] in
  let s' := match run.execs es run.init with Ok s' => s' | Panic => run.init end in
  signalled (run.world s') = [(demo.job1, os_Interrupt)]
  ∧ signalled_once (run.world s').
Proof.
  intros es s'. split; [reflexivity|].
  apply (run_signalled_once es s'). reflexivity.
Defined.

End Signals.

(** ** Fetching and following agree *)

Section FetchFollow.

Import job_manager.

Implicit Types (s : server.Server) (lg : Log).

(** X16.  For a registered job whose log no longer changes, the bytes that
    [GetOutput] returns are the messages that [SubscribeOutput] sends to a
    client that accepts them all, one after the other. *)
Theorem GetOutput_is_stream fuel jobID s job j lg (send : nat → option error) :
  server.jobStore s !! jobID = Some (Some job) →
  jobs (server.world s) !! job = Some j →
  logs (server.world s) !! job_Log j = Some lg →
  GoInt.fits (Lines lg) →
  (∀ k, send k = None) →
  (length (Lines lg) < fuel)%nat →
  server.GetOutput fuel jobID s (fun _ => server.world s) =
    Some (Ok (Some (concat (server.SubscribeOutput fuel jobID s
                              (fun _ => server.world s) send).1), None)).
Proof.
  intros Hid Hj Hlg Hfit Hsend Hfuel.
  unfold server.GetOutput, server.SubscribeOutput, server.GetJob,
    ReadAllLines, NewLogReader.
  rewrite Hid, Hj.
  pose proof (len_nonneg (Lines lg)).
  rewrite (ReadAllLines_loop_still fuel _ [] (server.world s) lg);
    simpl; try done; try lia.
  rewrite (SubscribeOutput_loop_all fuel _ [] (server.world s) lg);
    simpl; try done; try lia.
  by rewrite flatten_concat.
Qed.

Lemma GetOutput_is_stream_witness :
  let s := server.mkServer {[ "4d5c9fa91db4" := Some demo.job1 ]}
             demo.two_lines in
  server.GetOutput 3 "4d5c9fa91db4" s (fun _ => server.world s) =
    Some (Ok (Some (list_byte_of_string "line1line2"), None)).
Proof.
  intros s.
  rewrite (GetOutput_is_stream 3 "4d5c9fa91db4" s demo.job1
             (mkJob (exec_Command "sleep" ["10"]) StatusRunning demo.log1)
             (mkLog ["line1"; "line2"]) (fun _ => None));
    [reflexivity | reflexivity | reflexivity | reflexivity
    | exact demo_two_lines_fit | reflexivity | simpl; lia].
Defined.

End FetchFollow.
